(* ===================================================================== *)
(* reka.js, packages/react-code-editor/src/CodeEditor.tsx                *)
(*                                                                       *)
(* The code editor keeps a program in two forms: the text shown in a     *)
(* CodeMirror view and the object graph held by reka.  This file embeds  *)
(* the array differ (_diffASTArrayTypes, diffAST) and the callbacks of   *)
(* the CodeEditor component (syncCodeToState, the update listener,       *)
(* onExternalChange and its promise callback) and proves what they do.   *)
(*                                                                       *)
(* Objects live in a store indexed by locations, so that identity (===,  *)
(* indexOf) and in-place mutation (t.merge, splice) are visible.         *)
(* ===================================================================== *)

From stdpp Require Import gmap strings list fin_maps.

Local Open Scope string_scope.
Local Open Scope list_scope.

(* --------------------------------------------------------------------- *)
(* 1. Data model                                                         *)
(* --------------------------------------------------------------------- *)

(** An object reference.  Two references are [===] exactly when they are
    the same location. *)
Abbreviation loc := positive.

(** Modelled from the spec: the declarations of [t.Global] and
    [t.Component] (package @rekajs/types) are not part of the sources at
    hand.  Section 3 of the specification gives a Global a [name] and an
    [init] expression, and a Component a [name], an ordered parameter
    list, an ordered statement list and a view expression.  Expression
    subtrees are opaque to the differ; they are kept as their source
    text. *)
Definition Expr := string.

Record Global := mkGlobal {
  g_name : string;
  g_init : Expr
}.

Record Component := mkComponent {
  c_name : string;
  c_props : list string;
  c_state : list (string * Expr);
  c_template : Expr
}.

#[export] Instance Global_eq_dec : EqDecision Global.
Proof. solve_decision. Defined.
#[export] Instance Component_eq_dec : EqDecision Component.
Proof. solve_decision. Defined.

#[export] Instance Global_inhabited : Inhabited Global :=
  populate (mkGlobal "" "").
#[export] Instance Component_inhabited : Inhabited Component :=
  populate (mkComponent "" [] [] "").

(** [t.Program]: two arrays of object references. *)
Record Program := mkProgram {
  globals : list loc;
  components : list loc
}.

(** The objects reachable from the programs at hand: one heap per kind
    of entry. *)
Record Store := mkStore {
  gheap : gmap loc Global;
  cheap : gmap loc Component
}.

(* --------------------------------------------------------------------- *)
(* 2. JavaScript array primitives used by the differ                     *)
(* --------------------------------------------------------------------- *)

(** [arr.splice(start, 0, x)] for [start >= 0]: a start past the end is
    clamped to the length, so the element is appended. *)
Definition splice_insert (start : nat) (x : loc) (arr : list loc) : list loc :=
  take start arr ++ x :: drop start arr.

(** [arr.indexOf(x)]: the first index holding [x]; [None] stands for -1. *)
Fixpoint indexOf (x : loc) (arr : list loc) : option nat :=
  match arr with
  | [] => None
  | y :: rest =>
      if decide (y = x) then Some 0
      else match indexOf x rest with
           | Some i => Some (S i)
           | None => None
           end
  end.

(** [arr.splice(idx, 1)]: removes the element at [idx]; with [idx = -1]
    the start counts from the end, so the last element is removed. *)
Definition splice_remove (idx : option nat) (arr : list loc) : list loc :=
  match idx with
  | Some i => delete i arr
  | None => removelast arr
  end.

(* --------------------------------------------------------------------- *)
(* 3. _diffASTArrayTypes                                                 *)
(* --------------------------------------------------------------------- *)

Section DiffArray.
Context {T : Type} `{!Inhabited T}.

(** The object behind a reference. *)
Definition obj (h : gmap loc T) (r : loc) : T := h !!! r.

Variable isEqual : T -> T -> bool.
(** [t.merge(a, b)]: the value [a] holds after the call. *)
Variable merge : T -> T -> T.

(** [currentComponents.find(old => isEqual(old, newComponent))] *)
Definition find_existing (h : gmap loc T) (current : list loc) (n : loc)
  : option loc :=
  List.find (fun o => isEqual (obj h o) (obj h n)) current.

(** [newComponents.find(new => isEqual(oldComponent, new))] *)
Definition find_incoming (h : gmap loc T) (incoming : list loc) (o : loc)
  : option loc :=
  List.find (fun n => isEqual (obj h o) (obj h n)) incoming.

(** First loop: [newComponents.forEach((newComponent, i) => ...)].
    [i] is the index of the head of [incoming]; [pending] is
    [componentsToInsert]. *)
Fixpoint merge_loop (h : gmap loc T) (current incoming : list loc)
    (i : nat) (pending : list (loc * nat)) : gmap loc T * list (loc * nat) :=
  match incoming with
  | [] => (h, pending)
  | n :: rest =>
      match find_existing h current n with
      | None => merge_loop h current rest (S i) (pending ++ [(n, i)])
      | Some e =>
          merge_loop (<[e := merge (obj h e) (obj h n)]> h)
                     current rest (S i) pending
      end
  end.

(** Second loop:
    [componentsToInsert.forEach(([c, index], i) => splice(index + i, 0, c))]. *)
Fixpoint insert_loop (pending : list (loc * nat)) (i : nat)
    (current : list loc) : list loc :=
  match pending with
  | [] => current
  | (c, index) :: rest =>
      insert_loop rest (S i) (splice_insert (index + i) c current)
  end.

(** Third loop: the entries without a counterpart are collected by
    [filter] and then removed one at a time through [indexOf]. *)
Definition stale (h : gmap loc T) (current incoming : list loc) : list loc :=
  List.filter
    (fun o => negb (bool_decide (is_Some (find_incoming h incoming o))))
    current.

Definition remove_loop (doomed current : list loc) : list loc :=
  fold_left (fun arr c => splice_remove (indexOf c arr) arr) doomed current.

Definition _diffASTArrayTypes (h : gmap loc T)
    (program newProgram : Program) (getTarget : Program -> list loc)
    : gmap loc T * list loc :=
  let currentComponents := getTarget program in
  let newComponents := getTarget newProgram in
  let '(h1, componentsToInsert) :=
    merge_loop h currentComponents newComponents 0 [] in
  let inserted := insert_loop componentsToInsert 0 currentComponents in
  (h1, remove_loop (stale h1 inserted newComponents) inserted).

End DiffArray.

(** Modelled from the spec: [t.merge] (package @rekajs/types) is not part
    of the sources at hand.  Section 4.1: the fields of the matched entry
    are overwritten with the fields of the incoming entry, with full
    replacement of opaque expression subtrees; the matched object itself
    stays. *)
Definition merge_Global (a b : Global) : Global :=
  {| g_name := g_name b; g_init := g_init b |}.

Definition merge_Component (a b : Component) : Component :=
  {| c_name := c_name b; c_props := c_props b;
     c_state := c_state b; c_template := c_template b |}.

(** [(a, b) => a.name === b.name] *)
Definition same_global_name (a b : Global) : bool :=
  String.eqb (g_name a) (g_name b).
Definition same_component_name (a b : Component) : bool :=
  String.eqb (c_name a) (c_name b).

(** [diffAST(program, newProgram)]: globals first, then components.  The
    result is the store after the in-place merges and [program] with its
    two arrays as the splices left them. *)
Definition diffAST (st : Store) (program newProgram : Program)
    : Store * Program :=
  let '(hg, gs) :=
    _diffASTArrayTypes same_global_name merge_Global
      (gheap st) program newProgram globals in
  let '(hc, cs) :=
    _diffASTArrayTypes same_component_name merge_Component
      (cheap st) program newProgram components in
  (mkStore hg hc, mkProgram gs cs).

Definition global_names (st : Store) (p : Program) : list string :=
  (fun r => g_name (obj (gheap st) r)) <$> globals p.
Definition component_names (st : Store) (p : Program) : list string :=
  (fun r => c_name (obj (cheap st) r)) <$> components p.

(* --------------------------------------------------------------------- *)
(* 4. Keys of an array, as the lemmas on the differ use them             *)
(* --------------------------------------------------------------------- *)

Section KeyedArrays.
Context {T : Type} `{!Inhabited T}.
Variable key : T -> string.

Definition keyOf (h : gmap loc T) (r : loc) : string := key (obj h r).
Definition keys (h : gmap loc T) (l : list loc) : list string :=
  keyOf h <$> l.

(** The incoming entries whose key is not a key of [current], with
    their indices counted from [i]: what the first loop leaves in
    [componentsToInsert]. *)
Fixpoint unmatched (h : gmap loc T) (current incoming : list loc) (i : nat)
    : list (loc * nat) :=
  match incoming with
  | [] => []
  | n :: rest =>
      if bool_decide (keyOf h n ∈ keys h current)
      then unmatched h current rest (S i)
      else (n, i) :: unmatched h current rest (S i)
  end.

(** An incoming entry that is also an entry of the current array is the
    only incoming entry with its key.  This holds when the incoming keys
    are unique, and when the two arrays share no object. *)
Definition alias_safe (h : gmap loc T) (current incoming : list loc) : Prop :=
  forall n m, n ∈ incoming -> n ∈ current -> m ∈ incoming ->
              keyOf h m = keyOf h n -> m = n.

(** [copy] holds, entry by entry, allocated objects with the same
    fields as [original]. *)
Definition same_entries (h : gmap loc T) (original copy : list loc) : Prop :=
  Forall2 (fun c n => is_Some (h !! c) /\ h !! n = h !! c) original copy.
End KeyedArrays.

(** Every entry of [p] is an allocated object. *)
Definition allocated (st : Store) (p : Program) : Prop :=
  Forall (fun r => is_Some (gheap st !! r)) (globals p) /\
  Forall (fun r => is_Some (cheap st !! r)) (components p).

(** Names are unique within each array of [p]. *)
Definition unique_names (st : Store) (p : Program) : Prop :=
  NoDup (global_names st p) /\ NoDup (component_names st p).

(** [copy] is a deep copy of [original]: same entries in the same order,
    with the same field values. *)
Definition deep_copy (st : Store) (original copy : Program) : Prop :=
  same_entries (gheap st) (globals original) (globals copy) /\
  same_entries (cheap st) (components original) (components copy).

(* --------------------------------------------------------------------- *)
(* 5. Collaborators of the editor                                        *)
(* --------------------------------------------------------------------- *)

(** A program as a value, the form in which the parser produces it and
    the printer and [t.Schema.fromJSON] read it. *)
Record ProgramTree := mkTree {
  tree_globals : list Global;
  tree_components : list Component
}.

(** How an evaluation inside [try] ends. *)
Inductive Completion (A : Type) : Type :=
  | Normal (a : A)
  | Throw (message : string).
Arguments Normal {A} a.
Arguments Throw {A} message.

Inductive ParserStatus : Type :=
  | ParsingStatus
  | ErrorStatus (error : string)
  | SuccessStatus.

(** [new]: a fresh object. *)
Definition alloc {T : Type} (h : gmap loc T) (v : T) : gmap loc T * loc :=
  let r := fresh (dom h) in (<[r := v]> h, r).

Fixpoint alloc_all {T : Type} (h : gmap loc T) (vs : list T)
    : gmap loc T * list loc :=
  match vs with
  | [] => (h, [])
  | v :: rest =>
      let '(h1, r) := alloc h v in
      let '(h2, rs) := alloc_all h1 rest in
      (h2, r :: rs)
  end.

(** The objects of a tree, freshly built. *)
Definition instantiate (st : Store) (tree : ProgramTree) : Store * Program :=
  let '(hg, gs) := alloc_all (gheap st) (tree_globals tree) in
  let '(hc, cs) := alloc_all (cheap st) (tree_components tree) in
  (mkStore hg hc, mkProgram gs cs).

Definition read_tree (st : Store) (p : Program) : ProgramTree :=
  mkTree (obj (gheap st) <$> globals p) (obj (cheap st) <$> components p).

(** Modelled from the spec: [t.Schema.fromJSON] (package @rekajs/types)
    is not part of the sources at hand.  Section 4.2 calls its result the
    freshly printed AST: a new tree of new objects with the fields of its
    argument. *)
Definition fromJSON (st : Store) (p : Program) : Store * Program :=
  instantiate st (read_tree st p).

(** A CodeMirror change [{from, to, insert}]. *)
Record Transaction := mkTransaction {
  tx_from : nat;
  tx_to : nat;
  tx_insert : string
}.

Definition apply_transaction (tx : Transaction) (doc : string) : string :=
  (String.substring 0 (tx_from tx) doc ++ tx_insert tx
   ++ String.substring (tx_to tx) (String.length doc - tx_to tx) doc)%string.

(** [update.docChanged]: false only for a change set without changes. *)
Definition changes_doc (tx : Transaction) : bool :=
  negb (Nat.eqb (tx_from tx) (tx_to tx) && String.eqb (tx_insert tx) "").

(** What the update listener receives. *)
Record ViewUpdate := mkViewUpdate {
  docChanged : bool;
  state_doc : string
}.

(* --------------------------------------------------------------------- *)
(* 6. The CodeEditor component                                           *)
(* --------------------------------------------------------------------- *)

(** The mutable cells the callbacks of the component close over. *)
Record State := mkState {
  store : Store;
  reka_program : Program;               (* reka.program *)
  currentStateRef : Program;
  currentCodeStringRef : string;
  isSynchingFromCodeMirror : bool;
  isSynchingFromExternal : bool;
  isTypingRef : bool;
  codemirrorView : option string;       (* the document of the view *)
  debounced : option string;            (* pending call of the debounced sync *)
  microtasks : nat;                     (* queued promise callbacks *)
  onStatusChange : bool;                (* props.onStatusChange is given *)
  statuses : list ParserStatus          (* the calls it has received *)
}.

Definition set_store (v : Store) (s : State) : State :=
  mkState v (reka_program s) (currentStateRef s) (currentCodeStringRef s)
    (isSynchingFromCodeMirror s) (isSynchingFromExternal s) (isTypingRef s)
    (codemirrorView s) (debounced s) (microtasks s) (onStatusChange s)
    (statuses s).
Definition set_reka_program (v : Program) (s : State) : State :=
  mkState (store s) v (currentStateRef s) (currentCodeStringRef s)
    (isSynchingFromCodeMirror s) (isSynchingFromExternal s) (isTypingRef s)
    (codemirrorView s) (debounced s) (microtasks s) (onStatusChange s)
    (statuses s).
Definition set_currentStateRef (v : Program) (s : State) : State :=
  mkState (store s) (reka_program s) v (currentCodeStringRef s)
    (isSynchingFromCodeMirror s) (isSynchingFromExternal s) (isTypingRef s)
    (codemirrorView s) (debounced s) (microtasks s) (onStatusChange s)
    (statuses s).
Definition set_currentCodeStringRef (v : string) (s : State) : State :=
  mkState (store s) (reka_program s) (currentStateRef s) v
    (isSynchingFromCodeMirror s) (isSynchingFromExternal s) (isTypingRef s)
    (codemirrorView s) (debounced s) (microtasks s) (onStatusChange s)
    (statuses s).
Definition set_isSynchingFromCodeMirror (v : bool) (s : State) : State :=
  mkState (store s) (reka_program s) (currentStateRef s)
    (currentCodeStringRef s) v (isSynchingFromExternal s) (isTypingRef s)
    (codemirrorView s) (debounced s) (microtasks s) (onStatusChange s)
    (statuses s).
Definition set_isSynchingFromExternal (v : bool) (s : State) : State :=
  mkState (store s) (reka_program s) (currentStateRef s)
    (currentCodeStringRef s) (isSynchingFromCodeMirror s) v (isTypingRef s)
    (codemirrorView s) (debounced s) (microtasks s) (onStatusChange s)
    (statuses s).
Definition set_isTypingRef (v : bool) (s : State) : State :=
  mkState (store s) (reka_program s) (currentStateRef s)
    (currentCodeStringRef s) (isSynchingFromCodeMirror s)
    (isSynchingFromExternal s) v
    (codemirrorView s) (debounced s) (microtasks s) (onStatusChange s)
    (statuses s).
Definition set_codemirrorView (v : option string) (s : State) : State :=
  mkState (store s) (reka_program s) (currentStateRef s)
    (currentCodeStringRef s) (isSynchingFromCodeMirror s)
    (isSynchingFromExternal s) (isTypingRef s)
    v (debounced s) (microtasks s) (onStatusChange s) (statuses s).
Definition set_debounced (v : option string) (s : State) : State :=
  mkState (store s) (reka_program s) (currentStateRef s)
    (currentCodeStringRef s) (isSynchingFromCodeMirror s)
    (isSynchingFromExternal s) (isTypingRef s)
    (codemirrorView s) v (microtasks s) (onStatusChange s) (statuses s).
Definition set_microtasks (v : nat) (s : State) : State :=
  mkState (store s) (reka_program s) (currentStateRef s)
    (currentCodeStringRef s) (isSynchingFromCodeMirror s)
    (isSynchingFromExternal s) (isTypingRef s)
    (codemirrorView s) (debounced s) v (onStatusChange s) (statuses s).
Definition set_statuses (v : list ParserStatus) (s : State) : State :=
  mkState (store s) (reka_program s) (currentStateRef s)
    (currentCodeStringRef s) (isSynchingFromCodeMirror s)
    (isSynchingFromExternal s) (isTypingRef s)
    (codemirrorView s) (debounced s) (microtasks s) (onStatusChange s) v.

(** [props.onStatusChange?.(status)] *)
Definition emit (status : ParserStatus) (s : State) : State :=
  if onStatusChange s then set_statuses (statuses s ++ [status]) s else s.

(** [onExternalChange]: the guards, then the promise callback is queued. *)
Definition onExternalChange (s : State) : State :=
  if isSynchingFromCodeMirror s || isTypingRef s then s
  else match codemirrorView s with
       | None => s
       | Some _ =>
           if isSynchingFromExternal s then s
           else set_microtasks (S (microtasks s))
                  (set_isSynchingFromExternal true s)
       end.

(** Modelled from the spec: [reka.change] and [reka.listenToChanges]
    (package @rekajs/core) are not part of the sources at hand.  Sections
    4.3 and 6: the mutations of the callback are one transaction, reported
    as one change event, delivered to the subscribers before the call
    returns.  The subscriber of the component calls [onExternalChange] on
    a change event. *)
Definition reka_change (mutator : State -> State) (s : State) : State :=
  onExternalChange (mutator s).

(** The two reconcile passes inside [reka.change]. *)
Definition reconcile_passes (newAST : Program) (s : State) : State :=
  let '(st1, cached) := diffAST (store s) (currentStateRef s) newAST in
  let '(st2, live) := diffAST st1 (reka_program s) cached in
  set_reka_program live (set_currentStateRef cached (set_store st2 s)).

Section Editor.
(** [Parser.parseProgram] and [Parser.stringify] (package
    @rekajs/parser) are collaborators; the component is modelled for
    any parser and printer. *)
Variable parseProgram : string -> Completion ProgramTree.
Variable stringify : ProgramTree -> string.

(** The function given to [debounce]: what runs when the timer fires. *)
Definition syncCodeToState (code : string) (s : State) : State :=
  if isSynchingFromExternal s then s
  else
    let s1 := set_isSynchingFromCodeMirror true s in
    let s2 :=
      match parseProgram code with
      | Normal tree =>
          let '(st, newAST) := instantiate (store s1) tree in
          emit SuccessStatus
            (reka_change (reconcile_passes newAST) (set_store st s1))
      | Throw message => emit (ErrorStatus message) s1
      end in
    set_isTypingRef false (set_isSynchingFromCodeMirror false s2).

(** [EditorView.updateListener.of((view) => ...)] *)
Definition updateListener (view : ViewUpdate) (s : State) : State :=
  if negb (docChanged view) || isSynchingFromExternal s then s
  else
    let s1 := set_isTypingRef true s in
    let s2 := set_currentCodeStringRef (state_doc view) s1 in
    let s3 := emit ParsingStatus s2 in
    set_debounced (Some (currentCodeStringRef s3)) s3.

(** [codemirrorView.dispatch(transaction)]: the document is updated and
    the update listeners run before the call returns. *)
Definition dispatch (tx : Transaction) (s : State) : State :=
  match codemirrorView s with
  | None => s
  | Some doc =>
      let doc' := apply_transaction tx doc in
      updateListener (mkViewUpdate (changes_doc tx) doc')
        (set_codemirrorView (Some doc') s)
  end.

(** The callback given to [Promise.resolve().then]: the graph-to-text
    pass.  It is queued only with a mounted view; without one the access
    to [codemirrorView.state] fails and the flag stays set. *)
Definition syncStateToCode (s : State) : State :=
  let oldCode := currentCodeStringRef s in
  let newCode := stringify (read_tree (store s) (reka_program s)) in
  if String.eqb newCode oldCode then set_isSynchingFromExternal false s
  else
    let '(st, copy) := fromJSON (store s) (reka_program s) in
    let s1 := set_currentStateRef copy (set_store st s) in
    match codemirrorView s1 with
    | None => s1
    | Some doc =>
        let transaction := mkTransaction 0 (String.length doc) newCode in
        let s2 := set_currentCodeStringRef newCode s1 in
        let s3 := dispatch transaction s2 in
        set_isSynchingFromExternal false s3
    end.

(** One queued promise callback runs. *)
Definition run_microtask (s : State) : State :=
  match microtasks s with
  | O => s
  | S n => syncStateToCode (set_microtasks n s)
  end.

(** The microtask queue is drained before the next event is taken. *)
Definition flush (s : State) : State :=
  Nat.iter (microtasks s) run_microtask s.

(** The state when the component is first rendered. *)
Definition initial (st : Store) (program : Program) (handler : bool) : State :=
  let '(st1, copy) := fromJSON st program in
  mkState st1 program copy (stringify (read_tree st program))
    false false false None None 0 handler [].

(** A mutation of the graph from outside the editor: it touches the
    store and the arrays of [reka.program] only. *)
Definition external (g : Store * Program -> Store * Program) (s : State)
    : State :=
  let '(st, p) := g (store s, reka_program s) in
  set_reka_program p (set_store st s).

(** One turn of the event loop. *)
Inductive step : State -> State -> Prop :=
  | step_mount s :
      (* the layout effect creates the view on currentCodeStringRef *)
      step s (set_codemirrorView (Some (currentCodeStringRef s)) s)
  | step_view_update s doc view :
      (* the user edits the document or moves the selection *)
      codemirrorView s = Some doc ->
      (docChanged view = false -> state_doc view = doc) ->
      step s (flush (updateListener view
                       (set_codemirrorView (Some (state_doc view)) s)))
  | step_timer s code :
      (* the debounce timer fires *)
      debounced s = Some code ->
      step s (flush (syncCodeToState code (set_debounced None s)))
  | step_external s g :
      (* undo/redo, a settings panel or a peer changes the graph *)
      step s (flush (reka_change (external g) s)).

Inductive reachable : State -> Prop :=
  | reachable_initial st program handler :
      reachable (initial st program handler)
  | reachable_step s s' : reachable s -> step s s' -> reachable s'.

End Editor.

(** Between two turns of the event loop: no graph-to-text pass is queued
    or in flight, and the cached code string is the document of the
    view. *)
Definition quiescent (s : State) : Prop :=
  isSynchingFromExternal s = false /\
  microtasks s = 0 /\
  forall doc, codemirrorView s = Some doc -> currentCodeStringRef s = doc.

(** GlobalSettings.tsx, inside [reka.change]: the global found beforehand
    gets the new [init], or, when none was found, a new global is
    pushed. *)
Definition set_global (existing : option loc) (id : string) (value : Expr)
    (g : Store * Program) : Store * Program :=
  let '(st, p) := g in
  match existing with
  | None =>
      let '(h, r) := alloc (gheap st) (mkGlobal id value) in
      (mkStore h (cheap st), mkProgram (globals p ++ [r]) (components p))
  | Some r =>
      (mkStore (<[r := mkGlobal (g_name (obj (gheap st) r)) value]> (gheap st))
         (cheap st), p)
  end.

(** GlobalSettings.tsx, [onChange(id, value)] of the pair input.
    [Parser.parseExpression] is a collaborator; [None] stands for a
    result that is not an expression. *)
Definition settings_onChange (parseExpression : string -> option Expr)
    (id value : string) (s : State) : State :=
  match parseExpression value with
  | None => s
  | Some parsedValue =>
      if String.eqb id "" then s
      else
        let existingGlobalStateName :=
          List.find (fun r => String.eqb (g_name (obj (gheap (store s)) r)) id)
            (globals (reka_program s)) in
        reka_change
          (external (set_global existingGlobalStateName id parsedValue)) s
  end.

(** A peer adds a component at the end of [reka.program.components]. *)
Definition push_component (c : Component)
    (g : Store * Program) : Store * Program :=
  let '(st, p) := g in
  let '(h, r) := alloc (cheap st) c in
  (mkStore (gheap st) h, mkProgram (globals p) (components p ++ [r])).

(* --------------------------------------------------------------------- *)
(* 7. Properties of a reconciled array                                   *)
(* --------------------------------------------------------------------- *)

(** What holds of the names of an array after [diffAST]: [before] are the
    names of the current array before the call, [incoming] those of the
    incoming array, [after] those of the current array after the call.
    The names are those of [incoming], each once; the names shared with
    [before] stand in the order of [before]; the order is that of
    [incoming] when [incoming] is [before] without some names, and when it
    is [before] with one name put in. *)
Definition keys_outcome (before incoming after : list string) : Prop :=
  NoDup after /\
  after ≡ₚ incoming /\
  List.filter (fun k => bool_decide (k ∈ before)) after
  = List.filter (fun k => bool_decide (k ∈ incoming)) before /\
  (List.filter (fun k => bool_decide (k ∈ incoming)) before = incoming ->
   after = incoming) /\
  (forall l1 k l2,
      incoming = l1 ++ k :: l2 -> before = l1 ++ l2 -> after = incoming).

Section Outcome.
Context {T : Type} `{!Inhabited T}.
Variable key : T -> string.

(** What holds of the objects of an array after [diffAST]: an entry
    whose key is incoming stays, with its key and with the fields of the
    incoming entry of that key; an entry leaves only when its key is not
    incoming; an entry comes in only as the incoming object itself, when
    no entry had its key; no entry stands twice. *)
Definition entries_outcome (h : gmap loc T) (current incoming : list loc)
    (h' : gmap loc T) (result : list loc) : Prop :=
  (forall r, r ∈ current -> keyOf key h r ∈ keys key h incoming ->
     r ∈ result /\ keyOf key h' r = keyOf key h r /\
     forall n, n ∈ incoming -> keyOf key h n = keyOf key h r ->
               obj h' r = obj h n) /\
  (forall r, r ∈ current -> r ∉ result ->
     keyOf key h r ∉ keys key h incoming) /\
  (forall r, r ∈ result -> r ∉ current ->
     r ∈ incoming /\ (keyOf key h r ∉ keys key h current) /\
     obj h' r = obj h r) /\
  NoDup result.

(** What holds when the incoming keys may repeat: each current entry
    with an incoming key stays and holds the fields of the last incoming
    entry of its key; each incoming entry without a match is in the
    result. *)
Definition duplicates_outcome (h : gmap loc T) (current incoming : list loc)
    (h' : gmap loc T) (result : list loc) : Prop :=
  (forall e l1 n l2,
      e ∈ current -> incoming = l1 ++ n :: l2 ->
      keyOf key h n = keyOf key h e ->
      (forall m, m ∈ l2 -> keyOf key h m <> keyOf key h e) ->
      e ∈ result /\ obj h' e = obj h n) /\
  (forall n, n ∈ incoming -> keyOf key h n ∉ keys key h current ->
             n ∈ result).

(** The incoming array is the current one with one entry [x] of a new
    key put in: [x] itself stands in the result at its incoming index,
    between the former entries, and no field has changed. *)
Definition one_added_outcome (h : gmap loc T) (current incoming : list loc)
    (h' : gmap loc T) (result : list loc) : Prop :=
  forall n1 x n2,
    incoming = n1 ++ x :: n2 ->
    same_entries h current (n1 ++ n2) ->
    keyOf key h x ∉ keys key h current ->
    result = take (length n1) current ++ x :: drop (length n1) current /\
    result !! length n1 = Some x /\
    h' = h.

(** The incoming array is the current one without its entry [y]: the
    result is the current array without [y], and no field has changed. *)
Definition one_removed_outcome (h : gmap loc T) (current incoming : list loc)
    (h' : gmap loc T) (result : list loc) : Prop :=
  forall c1 y c2,
    current = c1 ++ y :: c2 ->
    same_entries h (c1 ++ c2) incoming ->
    result = c1 ++ c2 /\ h' = h.
End Outcome.

(** No object of [q] is an object of [p]. *)
Definition disjoint_objects (p q : Program) : Prop :=
  (forall r, r ∈ globals q -> r ∉ globals p) /\
  (forall r, r ∈ components q -> r ∉ components p).

(** [diffAST] as an evaluation inside the [try] of [syncCodeToState]: it
    has no [throw] statement and no check of its arguments, so it
    completes normally with its result. *)
Definition reconcile (st : Store) (program newProgram : Program)
    : Completion (Store * Program) :=
  Normal (diffAST st program newProgram).

(* --------------------------------------------------------------------- *)
(* 8. Sample programs                                                    *)
(* --------------------------------------------------------------------- *)

Module Sample.
Definition App : Component := mkComponent "App" [] [] "<div/>".
Definition App_edited : Component := mkComponent "App" [] [] "<span/>".
Definition App_other : Component := mkComponent "App" ["x"] [] "<p/>".
Definition Button : Component := mkComponent "Button" ["text"] [] "<button/>".
Definition Card : Component := mkComponent "Card" ["name"] [] "<img/>".
Definition Card2 : Component := mkComponent "Card2" [] [] "<p/>".
Definition Footer : Component := mkComponent "Footer" [] [] "<footer/>".
Definition text_A : Global := mkGlobal "text" "A".
Definition text_B : Global := mkGlobal "text" "B".
Definition y_1 : Global := mkGlobal "y" "1".

(** Objects 1 to 3 are the current tree, 11 onwards are parsed ones. *)
Definition heap_c : gmap loc Component :=
  list_to_map
    [(1%positive, App); (2%positive, Button); (3%positive, Card);
     (11%positive, App); (12%positive, Button); (13%positive, Card);
     (14%positive, Card2); (15%positive, App_edited);
     (16%positive, App_other); (17%positive, Footer)].
Definition heap_g : gmap loc Global :=
  list_to_map
    [(1%positive, text_A); (11%positive, text_B); (12%positive, y_1);
     (13%positive, text_A)].
Definition st : Store := mkStore heap_g heap_c.

Definition current : Program := mkProgram [1%positive] [1; 2; 3]%positive.
Definition copy : Program := mkProgram [13%positive] [11; 12; 13]%positive.
Definition reordered : Program :=
  mkProgram [13%positive] [12; 11; 13]%positive.
Definition one_more : Program :=
  mkProgram [11; 12]%positive [11; 12; 14; 13]%positive.
Definition one_less : Program := mkProgram [13%positive] [11; 13]%positive.
Definition two_more : Program :=
  mkProgram [13%positive] [11; 14; 17; 12; 13]%positive.
Definition swapped_for_new : Program :=
  mkProgram [13%positive] [13; 14]%positive.
Definition edited : Program := mkProgram [11%positive] [15; 12; 13]%positive.
Definition twice : Program :=
  mkProgram [13%positive] [15; 12; 16; 13]%positive.

Definition code_edited : string := "component App => <span/>".

(** A parser and a printer for the texts of the samples. *)
Definition parse (code : string) : Completion ProgramTree :=
  if String.eqb code code_edited then Normal (mkTree [] [App_edited])
  else if String.eqb code "App App" then Normal (mkTree [] [App_edited; App_other])
  else Throw "Unexpected token".

Definition print (t : ProgramTree) : string :=
  String.concat ";"
    (((fun g => ("val " ++ g_name g ++ " = " ++ g_init g)%string)
        <$> tree_globals t)
     ++ ((fun c => ("component " ++ c_name c ++ " => " ++ c_template c)%string)
           <$> tree_components t)).

Definition session : State :=
  initial print (mkStore ∅ (<[1%positive := App]> ∅))
    (mkProgram [] [1%positive]) true.
Definition mounted : State :=
  set_codemirrorView (Some (currentCodeStringRef session)) session.
(** The user has typed [code_edited]; the timer has not fired. *)
Definition typed : State :=
  flush print
    (updateListener (mkViewUpdate true code_edited)
       (set_codemirrorView (Some code_edited) mounted)).
(** Meanwhile a peer adds the component Card2. *)
Definition peer_added : State :=
  flush print (reka_change (external (push_component Card2)) typed).
(** Then the timer fires. *)
Definition synced : State :=
  flush print (syncCodeToState parse code_edited (set_debounced None peer_added)).
End Sample.

(** Between two turns of the event loop: no text-to-graph pass is in
    flight, the typing flag is set exactly while a call of the debounced
    sync is pending, and a status handler, if one is given, has received
    [parsing] last exactly while such a call is pending. *)
Definition sync_idle (s : State) : Prop :=
  isSynchingFromCodeMirror s = false /\
  (isTypingRef s = true <-> is_Some (debounced s)) /\
  (onStatusChange s = true ->
   (is_Some (debounced s) <-> last (statuses s) = Some ParsingStatus)).

(* --------------------------------------------------------------------- *)
(* Facts about the array primitives                                      *)
(* --------------------------------------------------------------------- *)

(** Closes a decidable goal on concrete data by evaluation. *)
Ltac decide_by_compute :=
  match goal with
  | |- ?P => apply (bool_decide_unpack P); vm_compute; exact I
  end.

Lemma splice_insert_perm start x arr : splice_insert start x arr ≡ₚ x :: arr.
Proof.
  unfold splice_insert.
  rewrite <- Permutation_middle. by rewrite take_drop.
Qed.

Lemma splice_insert_filter (P : loc -> bool) start x arr :
  P x = false ->
  List.filter P (splice_insert start x arr) = List.filter P arr.
Proof.
  intros Hx. unfold splice_insert.
  rewrite List.filter_app. simpl. rewrite Hx.
  rewrite <- List.filter_app. by rewrite take_drop.
Qed.

Lemma indexOf_app_here (pre : list loc) x rest :
  x ∉ pre -> indexOf x (pre ++ x :: rest) = Some (length pre).
Proof.
  induction pre as [|y pre IH]; intros Hx; simpl.
  - by rewrite decide_True.
  - apply not_elem_of_cons in Hx as [Hne Hx].
    rewrite decide_False by congruence. by rewrite IH.
Qed.

Lemma delete_app_here (pre : list loc) x rest :
  delete (length pre) (pre ++ x :: rest) = pre ++ rest.
Proof. induction pre as [|y pre IH]; simpl; [done | by rewrite IH]. Qed.

(** The removal loop, run on the entries selected by [doomed], leaves
    exactly the other entries, in their order.  No uniqueness is needed:
    each selected entry is found by [indexOf] at its own first position. *)
Lemma remove_loop_filter_gen (doomed : loc -> bool) (arr pre : list loc) :
  (forall x, x ∈ pre -> doomed x = false) ->
  remove_loop (List.filter doomed arr) (pre ++ arr)
  = pre ++ List.filter (fun x => negb (doomed x)) arr.
Proof.
  revert pre. induction arr as [|a arr IH]; intros pre Hpre; simpl.
  - done.
  - destruct (doomed a) eqn:Ha; simpl.
    + rewrite indexOf_app_here.
      * simpl. rewrite delete_app_here. by apply IH.
      * intros Hin. apply Hpre in Hin. congruence.
    + replace (pre ++ a :: arr) with ((pre ++ [a]) ++ arr)
        by (by rewrite <- app_assoc).
      unfold remove_loop in IH. rewrite IH.
      * by rewrite <- app_assoc.
      * intros x [Hx | ->%list_elem_of_singleton]%elem_of_app; auto.
Qed.

Lemma remove_loop_filter (doomed : loc -> bool) (arr : list loc) :
  remove_loop (List.filter doomed arr) arr
  = List.filter (fun x => negb (doomed x)) arr.
Proof.
  apply (remove_loop_filter_gen doomed arr []). intros x Hx. inversion Hx.
Qed.

Lemma filter_fmap_comm {A B} (f : A -> B) (P : B -> bool) (l : list A) :
  List.filter P (f <$> l) = f <$> List.filter (fun x => P (f x)) l.
Proof.
  induction l as [|a l IH]; [done|].
  rewrite fmap_cons. simpl. rewrite IH.
  by destruct (P (f a)).
Qed.

Lemma filter_filter_comm {A} (P Q : A -> bool) (l : list A) :
  List.filter P (List.filter Q l) = List.filter Q (List.filter P l).
Proof.
  induction l as [|a l IH]; simpl; [done|].
  destruct (P a) eqn:HP, (Q a) eqn:HQ; simpl; rewrite ?HP, ?HQ, IH; done.
Qed.

Lemma filter_all {A} (P : A -> bool) (l : list A) :
  (forall x, x ∈ l -> P x = true) -> List.filter P l = l.
Proof.
  induction l as [|a l IH]; intros HP; simpl; [done|].
  rewrite HP by (by left). rewrite IH; [done|].
  intros x Hx. apply HP. by right.
Qed.

(* --------------------------------------------------------------------- *)
(* Facts about _diffASTArrayTypes, for an equality that compares a key   *)
(* --------------------------------------------------------------------- *)

Section DiffFacts.
Context {T : Type} `{!Inhabited T}.
Variable isEqual : T -> T -> bool.
Variable merge : T -> T -> T.
Variable key : T -> string.

Hypothesis isEqual_key : forall a b, isEqual a b = true <-> key a = key b.
Hypothesis merge_key : forall a b, key a = key b -> key (merge a b) = key a.

Lemma find_existing_Some h current n e :
  find_existing isEqual h current n = Some e ->
  e ∈ current /\ keyOf key h e = keyOf key h n.
Proof.
  intros Hf. apply find_some in Hf as [Hin He].
  split; [by apply list_elem_of_In | by apply isEqual_key].
Qed.

Lemma find_existing_None h current n :
  find_existing isEqual h current n = None ->
  keyOf key h n ∉ keys key h current.
Proof.
  intros Hf [o [Hk Ho]]%list_elem_of_fmap.
  apply list_elem_of_In in Ho.
  pose proof (find_none _ _ Hf o Ho) as Hne. simpl in Hne.
  assert (isEqual (obj h o) (obj h n) = true) by (by apply isEqual_key).
  congruence.
Qed.

Lemma find_incoming_is_Some h incoming o :
  is_Some (find_incoming isEqual h incoming o) <->
  keyOf key h o ∈ keys key h incoming.
Proof.
  split.
  - intros [n Hn]. apply find_some in Hn as [Hin He].
    apply list_elem_of_fmap. exists n.
    split; [by apply isEqual_key | by apply list_elem_of_In].
  - intros [n [Hk Hn]]%list_elem_of_fmap.
    destruct (find_incoming isEqual h incoming o) eqn:Hf; [by eexists |].
    apply list_elem_of_In in Hn.
    pose proof (find_none _ _ Hf n Hn) as Hne. simpl in Hne.
    assert (isEqual (obj h o) (obj h n) = true) by (by apply isEqual_key).
    congruence.
Qed.

Lemma keys_ext h h' l :
  (forall r, keyOf key h' r = keyOf key h r) -> keys key h' l = keys key h l.
Proof. intros E. unfold keys. apply list_fmap_ext. intros _ x _. apply E. Qed.

Lemma keyOf_merge_insert h e n r :
  keyOf key h e = keyOf key h n ->
  keyOf key (<[e := merge (obj h e) (obj h n)]> h) r = keyOf key h r.
Proof.
  intros Hk. unfold keyOf, obj.
  destruct (decide (e = r)) as [->|Hne].
  - rewrite lookup_total_insert_eq. by apply merge_key.
  - by rewrite lookup_total_insert_ne.
Qed.

(** The keys never change: [t.merge] is only called on two entries with
    the same key. *)
Lemma merge_loop_keyOf h current incoming i p h1 p1 :
  merge_loop isEqual merge h current incoming i p = (h1, p1) ->
  forall r, keyOf key h1 r = keyOf key h r.
Proof.
  revert h i p. induction incoming as [|n rest IH]; intros h i p Hrun r.
  - simpl in Hrun. by inversion Hrun.
  - simpl in Hrun.
    destruct (find_existing isEqual h current n) as [e|] eqn:Hf.
    + apply find_existing_Some in Hf as [_ Hk].
      rewrite (IH _ _ _ Hrun r). by apply keyOf_merge_insert.
    + by apply (IH _ _ _ Hrun r).
Qed.

Lemma merge_loop_pending h current incoming i p h1 p1 :
  merge_loop isEqual merge h current incoming i p = (h1, p1) ->
  p1 = p ++ unmatched key h current incoming i.
Proof.
  revert h i p. induction incoming as [|n rest IH]; intros h i p Hrun.
  - simpl in Hrun. inversion Hrun. simpl. by rewrite app_nil_r.
  - simpl in Hrun. simpl.
    destruct (find_existing isEqual h current n) as [e|] eqn:Hf.
    + apply find_existing_Some in Hf as [Hin Hk].
      rewrite bool_decide_true.
      2:{ rewrite <- Hk. apply list_elem_of_fmap. by exists e. }
      rewrite (IH _ _ _ Hrun).
      f_equal. clear -Hk merge_key.
      revert i. induction rest as [|m rest IHr]; intros i; simpl; [done|].
      rewrite (keys_ext h), IHr, keyOf_merge_insert; try done.
      intros r. by apply keyOf_merge_insert.
    + apply find_existing_None in Hf.
      rewrite bool_decide_false by done.
      rewrite (IH _ _ _ Hrun). by rewrite <- app_assoc.
Qed.

Lemma unmatched_spec h current incoming i n j :
  (n, j) ∈ unmatched key h current incoming i ->
  n ∈ incoming /\ keyOf key h n ∉ keys key h current.
Proof.
  revert i. induction incoming as [|m rest IH]; intros i Hin; simpl in Hin.
  - inversion Hin.
  - case_bool_decide as Hm.
    + apply IH in Hin as [? ?]. split; [by right | done].
    + apply elem_of_cons in Hin as [Heq | Hin].
      * inversion Heq; subst. split; [by left | done].
      * apply IH in Hin as [? ?]. split; [by right | done].
Qed.

Lemma unmatched_fst h current incoming i :
  (unmatched key h current incoming i).*1
  = List.filter (fun n => negb (bool_decide (keyOf key h n ∈ keys key h current)))
      incoming.
Proof.
  revert i. induction incoming as [|m rest IH]; intros i; simpl; [done|].
  case_bool_decide; simpl; by rewrite IH.
Qed.

Lemma insert_loop_perm pending i current :
  insert_loop pending i current ≡ₚ current ++ pending.*1.
Proof.
  revert i current. induction pending as [|[c idx] rest IH];
    intros i current; simpl.
  - by rewrite app_nil_r.
  - rewrite IH, splice_insert_perm. simpl. apply Permutation_middle.
Qed.

Lemma insert_loop_filter (P : loc -> bool) pending i current :
  (forall c, c ∈ pending.*1 -> P c = false) ->
  List.filter P (insert_loop pending i current) = List.filter P current.
Proof.
  revert i current. induction pending as [|[c idx] rest IH];
    intros i current Hp; simpl; [done|].
  rewrite IH.
  - apply splice_insert_filter. apply Hp. simpl. by left.
  - intros c' Hc'. apply Hp. simpl. by right.
Qed.

(** Shape of the result: the keys are those before the call, the array
    is [current] with the unmatched incoming entries spliced in and the
    entries whose key is not incoming filtered out. *)
Lemma diff_shape h program newProgram getTarget h1 res :
  _diffASTArrayTypes isEqual merge h program newProgram getTarget = (h1, res) ->
  (forall r, keyOf key h1 r = keyOf key h r) /\
  res = List.filter
          (fun o => bool_decide (keyOf key h o ∈ keys key h (getTarget newProgram)))
          (insert_loop
             (unmatched key h (getTarget program) (getTarget newProgram) 0) 0
             (getTarget program)).
Proof.
  unfold _diffASTArrayTypes.
  destruct (merge_loop isEqual merge h (getTarget program)
              (getTarget newProgram) 0 []) as [h' p'] eqn:Hrun.
  intros Heq. inversion Heq; subst h' res. clear Heq.
  pose proof (merge_loop_keyOf _ _ _ _ _ _ _ Hrun) as Hk.
  apply merge_loop_pending in Hrun. simpl in Hrun. subst p'.
  split; [done|].
  unfold stale. rewrite remove_loop_filter.
  apply List.filter_ext. intros o.
  rewrite negb_involutive.
  apply bool_decide_ext.
  rewrite find_incoming_is_Some.
  by rewrite (keys_ext h h1), Hk.
Qed.

Lemma keys_inj h l x y :
  NoDup (keys key h l) -> x ∈ l -> y ∈ l -> keyOf key h x = keyOf key h y -> x = y.
Proof.
  induction l as [|a l IH]; intros Hnd Hx Hy Hk; [inversion Hx|].
  simpl in Hnd. apply NoDup_cons in Hnd as [Ha Hnd].
  apply elem_of_cons in Hx as [->|Hx]; apply elem_of_cons in Hy as [->|Hy].
  - done.
  - exfalso. apply Ha. rewrite Hk. by apply list_elem_of_fmap_2.
  - exfalso. apply Ha. rewrite <- Hk. by apply list_elem_of_fmap_2.
  - by apply IH.
Qed.

Lemma filter_keys (P : string -> bool) h l :
  List.filter P (keys key h l) = keys key h (List.filter (fun x => P (keyOf key h x)) l).
Proof. apply filter_fmap_comm. Qed.

Lemma diff_elem_of h program newProgram getTarget h1 res r :
  _diffASTArrayTypes isEqual merge h program newProgram getTarget = (h1, res) ->
  r ∈ res <->
  (r ∈ getTarget program \/
   (r ∈ getTarget newProgram /\ keyOf key h r ∉ keys key h (getTarget program))) /\
  keyOf key h r ∈ keys key h (getTarget newProgram).
Proof.
  intros Hd. apply diff_shape in Hd as [_ ->].
  rewrite list_elem_of_In, filter_In, <- list_elem_of_In.
  rewrite insert_loop_perm, elem_of_app, unmatched_fst.
  rewrite bool_decide_eq_true.
  rewrite (list_elem_of_In (List.filter _ _) r), filter_In, <- list_elem_of_In.
  rewrite negb_true_iff, bool_decide_eq_false.
  done.
Qed.

(** The entries shared with the old array stay in the order of the old
    array. *)
Lemma diff_keeps_current_order h program newProgram getTarget h1 res :
  _diffASTArrayTypes isEqual merge h program newProgram getTarget = (h1, res) ->
  List.filter (fun k => bool_decide (k ∈ keys key h (getTarget program)))
    (keys key h1 res)
  = List.filter (fun k => bool_decide (k ∈ keys key h (getTarget newProgram)))
      (keys key h (getTarget program)).
Proof.
  intros Hd. apply diff_shape in Hd as [Hk ->].
  rewrite (keys_ext h h1) by done.
  set (cur := getTarget program). set (inc := getTarget newProgram).
  set (shared := fun o => bool_decide (keyOf key h o ∈ keys key h cur)).
  set (kept := fun o => bool_decide (keyOf key h o ∈ keys key h inc)).
  rewrite !filter_keys. f_equal. fold shared kept.
  rewrite filter_filter_comm, (insert_loop_filter shared).
  - f_equal. apply filter_all. intros x Hx.
    apply bool_decide_eq_true. by apply list_elem_of_fmap_2.
  - intros c [[c' j] [-> Hc]]%list_elem_of_fmap.
    apply unmatched_spec in Hc as [_ Hc]. by apply bool_decide_eq_false.
Qed.

Lemma keys_filter_in h (ks : list string) l :
  keys key h (List.filter (fun o => bool_decide (keyOf key h o ∈ ks)) l)
  = List.filter (fun k => bool_decide (k ∈ ks)) (keys key h l).
Proof. symmetry. apply filter_fmap_comm. Qed.

Lemma keys_filter_notin h (ks : list string) l :
  keys key h (List.filter (fun o => negb (bool_decide (keyOf key h o ∈ ks))) l)
  = List.filter (fun k => negb (bool_decide (k ∈ ks))) (keys key h l).
Proof.
  symmetry.
  apply (filter_fmap_comm (keyOf key h) (fun k => negb (bool_decide (k ∈ ks)))).
Qed.

Lemma diff_keys_elem_of h program newProgram getTarget h1 res k :
  _diffASTArrayTypes isEqual merge h program newProgram getTarget = (h1, res) ->
  k ∈ keys key h1 res <-> k ∈ keys key h (getTarget newProgram).
Proof.
  intros Hd. pose proof (diff_shape _ _ _ _ _ _ Hd) as [Hk _].
  rewrite (keys_ext h h1) by done.
  split.
  - intros [r [-> Hr]]%list_elem_of_fmap.
    by apply (diff_elem_of _ _ _ _ _ _ _ Hd) in Hr as [_ ?].
  - intros [n [-> Hn]]%list_elem_of_fmap.
    destruct (decide (keyOf key h n ∈ keys key h (getTarget program))) as [Hin|Hout].
    + apply list_elem_of_fmap in Hin as [c [Hc Hin]].
      rewrite Hc. apply list_elem_of_fmap_2.
      apply (diff_elem_of _ _ _ _ _ _ _ Hd). split; [by left|].
      rewrite <- Hc. by apply list_elem_of_fmap_2.
    + apply list_elem_of_fmap_2.
      apply (diff_elem_of _ _ _ _ _ _ _ Hd). split; [by right|].
      by apply list_elem_of_fmap_2.
Qed.

Lemma diff_keys_NoDup h program newProgram getTarget h1 res :
  _diffASTArrayTypes isEqual merge h program newProgram getTarget = (h1, res) ->
  NoDup (keys key h (getTarget program)) ->
  NoDup (keys key h (getTarget newProgram)) ->
  NoDup (keys key h1 res).
Proof.
  intros Hd Hcur Hinc. apply diff_shape in Hd as [Hk ->].
  rewrite (keys_ext h h1) by done.
  rewrite keys_filter_in.
  apply NoDup_ListNoDup, List.NoDup_filter, NoDup_ListNoDup.
  set (U := unmatched key h (getTarget program) (getTarget newProgram) 0).
  assert (keys key h (insert_loop U 0 (getTarget program))
          ≡ₚ keys key h (getTarget program) ++ keys key h U.*1) as ->.
  { unfold keys. by rewrite insert_loop_perm, fmap_app. }
  apply NoDup_app. split; [done|]. split.
  - intros k Hk1 [c [-> Hc]]%list_elem_of_fmap.
    apply list_elem_of_fmap in Hc as [[c' j] [-> Hc]].
    apply unmatched_spec in Hc as [_ Hc]. by apply Hc.
  - unfold U. rewrite unmatched_fst, keys_filter_notin.
    by apply NoDup_ListNoDup, List.NoDup_filter, NoDup_ListNoDup.
Qed.

(** With unique keys on both sides the resulting keys are those of the
    incoming array, each once. *)
Lemma diff_keys_perm h program newProgram getTarget h1 res :
  _diffASTArrayTypes isEqual merge h program newProgram getTarget = (h1, res) ->
  NoDup (keys key h (getTarget program)) ->
  NoDup (keys key h (getTarget newProgram)) ->
  keys key h1 res ≡ₚ keys key h (getTarget newProgram).
Proof.
  intros Hd Hcur Hinc.
  apply NoDup_Permutation; [by eapply diff_keys_NoDup | done |].
  intros k. by eapply diff_keys_elem_of.
Qed.

Lemma unmatched_nil h current incoming i :
  (forall k, k ∈ keys key h incoming -> k ∈ keys key h current) ->
  unmatched key h current incoming i = [].
Proof.
  revert i. induction incoming as [|n rest IH]; intros i Hsub; simpl; [done|].
  rewrite bool_decide_true by (apply Hsub; simpl; by left).
  apply IH. intros k Hk. apply Hsub. simpl. by right.
Qed.

(** When the incoming array brings no new key, the result is the old
    array without the entries whose key is gone. *)
Lemma diff_no_new_key h program newProgram getTarget h1 res :
  _diffASTArrayTypes isEqual merge h program newProgram getTarget = (h1, res) ->
  (forall k, k ∈ keys key h (getTarget newProgram) ->
             k ∈ keys key h (getTarget program)) ->
  res = List.filter
          (fun o => bool_decide (keyOf key h o ∈ keys key h (getTarget newProgram)))
          (getTarget program).
Proof.
  intros Hd Hsub. apply diff_shape in Hd as [_ ->].
  by rewrite unmatched_nil.
Qed.

Lemma unmatched_one h current n1 x n2 i :
  (forall k, k ∈ keys key h (n1 ++ n2) -> k ∈ keys key h current) ->
  keyOf key h x ∉ keys key h current ->
  unmatched key h current (n1 ++ x :: n2) i = [(x, i + length n1)].
Proof.
  revert i. induction n1 as [|n n1 IH]; intros i Hsub Hx; simpl.
  - rewrite bool_decide_false by done.
    rewrite unmatched_nil by done. f_equal. f_equal. lia.
  - rewrite bool_decide_true by (apply Hsub; simpl; by left).
    rewrite IH; [f_equal; f_equal; lia | | done].
    intros k Hk. apply Hsub. simpl. by right.
Qed.

(** When the incoming array is the old one with one entry of a new key
    put in, the entry itself is spliced in at its incoming index. *)
Lemma diff_one_new_key h program newProgram getTarget h1 res n1 x n2 :
  _diffASTArrayTypes isEqual merge h program newProgram getTarget = (h1, res) ->
  getTarget newProgram = n1 ++ x :: n2 ->
  keys key h (n1 ++ n2) = keys key h (getTarget program) ->
  keyOf key h x ∉ keys key h (getTarget program) ->
  res = take (length n1) (getTarget program) ++ x ::
        drop (length n1) (getTarget program).
Proof.
  intros Hd Hinc Hsame Hx. apply diff_shape in Hd as [_ ->].
  rewrite Hinc, unmatched_one; [| by rewrite Hsame | done].
  simpl. rewrite Nat.add_0_r. apply filter_all.
  intros r Hr. apply bool_decide_eq_true.
  change (r ∈ splice_insert (length n1) x (getTarget program)) in Hr.
  rewrite splice_insert_perm in Hr.
  apply elem_of_cons in Hr as [->|Hcur].
  - apply list_elem_of_fmap_2. apply elem_of_app. right. by left.
  - assert (keyOf key h r ∈ keys key h (n1 ++ n2)) as Hin
      by (rewrite Hsame; by apply list_elem_of_fmap_2).
    unfold keys in *. rewrite fmap_app in *. simpl.
    apply elem_of_app in Hin as [?|?]; apply elem_of_app; [by left|].
    right. by right.
Qed.

End DiffFacts.

(* --------------------------------------------------------------------- *)
(* Field values after the merges, for a merge that overwrites all fields *)
(* --------------------------------------------------------------------- *)

Section DiffValues.
Context {T : Type} `{!Inhabited T}.
Variable isEqual : T -> T -> bool.
Variable merge : T -> T -> T.
Variable key : T -> string.

Hypothesis isEqual_key : forall a b, isEqual a b = true <-> key a = key b.
Hypothesis merge_replace : forall a b, merge a b = b.

Lemma merge_replace_key a b : key a = key b -> key (merge a b) = key a.
Proof. intros E. by rewrite merge_replace. Qed.

Lemma alias_safe_unique h current incoming :
  NoDup (keys key h incoming) -> alias_safe key h current incoming.
Proof. intros Hnd n m Hn _ Hm Hk. by eapply keys_inj. Qed.

Lemma alias_safe_disjoint h current incoming :
  (forall n, n ∈ incoming -> n ∉ current) -> alias_safe key h current incoming.
Proof. intros Hd n m Hn Hc. by apply Hd in Hn. Qed.

(** After the first loop a current entry holds the fields of the last
    incoming entry with its key; every other object is as before. *)
Lemma merge_loop_values h current incoming i p h1 p1 :
  merge_loop isEqual merge h current incoming i p = (h1, p1) ->
  NoDup (keys key h current) ->
  alias_safe key h current incoming ->
  (forall e l1 n l2,
      e ∈ current -> incoming = l1 ++ n :: l2 ->
      keyOf key h n = keyOf key h e ->
      (forall m, m ∈ l2 -> keyOf key h m <> keyOf key h e) ->
      obj h1 e = obj h n) /\
  (forall r, r ∉ current \/ keyOf key h r ∉ keys key h incoming ->
             obj h1 r = obj h r).
Proof.
  revert h i p.
  induction incoming as [|n0 rest IH]; intros h i p Hrun Hnd Hsafe.
  { simpl in Hrun. inversion Hrun; subst. split; [|done].
    intros e l1 n l2 _ Hnil. by destruct l1. }
  simpl in Hrun.
  destruct (find_existing isEqual h current n0) as [e0|] eqn:Hf.
  - apply (find_existing_Some isEqual key isEqual_key) in Hf as [He0 Hk0].
    rewrite merge_replace in Hrun.
    set (h2 := <[e0 := obj h n0]> h) in *.
    assert (Hk2 : forall r, keyOf key h2 r = keyOf key h r).
    { intros r. unfold keyOf, obj, h2.
      destruct (decide (e0 = r)) as [->|Hne].
      - by rewrite lookup_total_insert_eq.
      - by rewrite lookup_total_insert_ne. }
    assert (Hobj2 : forall r, r <> e0 -> obj h2 r = obj h r).
    { intros r Hne. unfold obj, h2. by rewrite lookup_total_insert_ne. }
    assert (He2 : obj h2 e0 = obj h n0).
    { unfold obj, h2. by rewrite lookup_total_insert_eq. }
    destruct (IH h2 _ _ Hrun) as [IH1 IH2].
    { by rewrite (keys_ext key h h2). }
    { intros n m Hn Hc Hm Hk. rewrite !Hk2 in Hk.
      apply Hsafe; try done; by right. }
    split.
    + intros e l1 n l2 He Hsplit Hk Hlast.
      destruct l1 as [|n' l1]; simpl in Hsplit; inversion Hsplit; subst.
      * assert (e = e0) as -> by (eapply keys_inj; eauto; congruence).
        rewrite IH2; [done|]. right. rewrite Hk2, (keys_ext key h h2) by done.
        intros [m [Hm Hin]]%list_elem_of_fmap.
        by apply (Hlast m).
      * rewrite (IH1 e l1 n l2 He eq_refl).
        -- destruct (decide (n = e0)) as [->|Hne]; [|by apply Hobj2].
           rewrite He2. f_equal.
           apply Hsafe; [ | done | by left | done].
           right. apply elem_of_app. right. by left.
        -- by rewrite !Hk2.
        -- intros m Hm. rewrite !Hk2. by apply Hlast.
    + intros r Hr.
      rewrite IH2.
      * apply Hobj2. intros ->. destruct Hr as [Hr|Hr]; [done|].
        apply Hr. rewrite Hk0. simpl. by left.
      * destruct Hr as [Hr|Hr]; [by left|]. right.
        rewrite Hk2, (keys_ext key h h2) by done.
        intros Hin. apply Hr. simpl. by right.
  - apply (find_existing_None isEqual key isEqual_key) in Hf.
    destruct (IH h _ _ Hrun Hnd) as [IH1 IH2].
    { intros n m Hn Hc Hm Hk. apply Hsafe; try done; by right. }
    split.
    + intros e l1 n l2 He Hsplit Hk Hlast.
      destruct l1 as [|n' l1]; simpl in Hsplit; inversion Hsplit; subst.
      * exfalso. apply Hf. rewrite Hk. by apply list_elem_of_fmap_2.
      * by apply (IH1 e l1 n l2).
    + intros r Hr. apply IH2.
      destruct Hr as [Hr|Hr]; [by left|]. right.
      intros Hin. apply Hr. simpl. by right.
Qed.

Lemma diff_values h program newProgram getTarget h1 res :
  _diffASTArrayTypes isEqual merge h program newProgram getTarget = (h1, res) ->
  NoDup (keys key h (getTarget program)) ->
  alias_safe key h (getTarget program) (getTarget newProgram) ->
  (forall e l1 n l2,
      e ∈ getTarget program -> getTarget newProgram = l1 ++ n :: l2 ->
      keyOf key h n = keyOf key h e ->
      (forall m, m ∈ l2 -> keyOf key h m <> keyOf key h e) ->
      obj h1 e = obj h n) /\
  (forall r, r ∉ getTarget program \/
             keyOf key h r ∉ keys key h (getTarget newProgram) ->
             obj h1 r = obj h r).
Proof.
  unfold _diffASTArrayTypes.
  destruct (merge_loop isEqual merge h (getTarget program)
              (getTarget newProgram) 0 []) as [h' p'] eqn:Hrun.
  intros Heq. inversion Heq; subst h' res. clear Heq.
  by eapply merge_loop_values.
Qed.

(** With unique incoming keys: a current entry holds the fields of the
    incoming entry with its key. *)
Lemma diff_values_unique h program newProgram getTarget h1 res e n :
  _diffASTArrayTypes isEqual merge h program newProgram getTarget = (h1, res) ->
  NoDup (keys key h (getTarget program)) ->
  NoDup (keys key h (getTarget newProgram)) ->
  e ∈ getTarget program -> n ∈ getTarget newProgram ->
  keyOf key h n = keyOf key h e ->
  obj h1 e = obj h n.
Proof.
  intros Hd Hcur Hinc He Hn Hk.
  destruct (diff_values _ _ _ _ _ _ Hd Hcur) as [H1 _];
    [by apply alias_safe_unique|].
  apply list_elem_of_split in Hn as [l1 [l2 Hsplit]].
  apply (H1 e l1 n l2); try done.
  intros m Hm Hkm. rewrite Hsplit in Hinc.
  unfold keys in Hinc. rewrite fmap_app, fmap_cons in Hinc.
  apply NoDup_app in Hinc as (_ & _ & Hinc).
  apply NoDup_cons in Hinc as [Hinc _].
  apply Hinc. rewrite Hk, <- Hkm. by apply list_elem_of_fmap_2.
Qed.

Lemma same_entries_elem (h : gmap loc T) original copy n :
  same_entries h original copy -> n ∈ copy ->
  exists c, c ∈ original /\ is_Some (h !! c) /\ h !! n = h !! c.
Proof.
  intros HF Hn. induction HF as [|c m cs ms [H1 H2] HF IH]; [inversion Hn|].
  apply elem_of_cons in Hn as [->|Hn].
  - exists c. split; [by left | done].
  - destruct (IH Hn) as (c' & ? & ?). exists c'. split; [by right | done].
Qed.

Lemma same_entries_keys (h : gmap loc T) original copy :
  same_entries h original copy -> keys key h copy = keys key h original.
Proof.
  intros HF. induction HF as [|c m cs ms [H1 H2] HF IH]; [done|].
  simpl. rewrite IH. f_equal. unfold keyOf, obj.
  by rewrite !lookup_total_alt, H2.
Qed.

(** When every incoming entry with a match has the fields of an entry of
    the current array, the merges write back what is there: the heap is
    left as it is. *)
Lemma merge_loop_noop h current incoming i p :
  NoDup (keys key h current) ->
  (forall n, n ∈ incoming -> keyOf key h n ∈ keys key h current ->
     exists c, c ∈ current /\ is_Some (h !! c) /\ h !! n = h !! c) ->
  merge_loop isEqual merge h current incoming i p
  = (h, p ++ unmatched key h current incoming i).
Proof.
  intros Hnd. revert i p.
  induction incoming as [|n rest IH]; intros i p Hcopy; simpl.
  { by rewrite app_nil_r. }
  destruct (find_existing isEqual h current n) as [e|] eqn:Hf.
  - apply (find_existing_Some isEqual key isEqual_key) in Hf as [He Hk].
    assert (Hin : keyOf key h n ∈ keys key h current)
      by (rewrite <- Hk; by apply list_elem_of_fmap_2).
    rewrite bool_decide_true by done.
    destruct (Hcopy n) as (c & Hc & [v Hv] & Hn); [by left | done |].
    assert (Hobj : obj h n = obj h c)
      by (unfold obj; by rewrite !lookup_total_alt, Hn).
    assert (e = c) as ->.
    { eapply keys_inj; eauto. rewrite Hk. unfold keyOf. by rewrite Hobj. }
    rewrite merge_replace, Hobj.
    replace (<[c := obj h c]> h) with h.
    + apply IH. intros m Hm. apply Hcopy. by right.
    + symmetry. apply insert_id. unfold obj.
      by rewrite lookup_total_alt, Hv.
  - apply (find_existing_None isEqual key isEqual_key) in Hf.
    rewrite bool_decide_false by done.
    rewrite IH.
    + by rewrite <- app_assoc.
    + intros m Hm. apply Hcopy. by right.
Qed.

Lemma diff_noop_heap h program newProgram getTarget :
  NoDup (keys key h (getTarget program)) ->
  (forall n, n ∈ getTarget newProgram ->
     keyOf key h n ∈ keys key h (getTarget program) ->
     exists c, c ∈ getTarget program /\ is_Some (h !! c) /\ h !! n = h !! c) ->
  (_diffASTArrayTypes isEqual merge h program newProgram getTarget).1 = h.
Proof.
  intros Hnd Hcopy. unfold _diffASTArrayTypes.
  by rewrite merge_loop_noop.
Qed.

(** Reconciling an array with a copy of itself changes neither the
    array nor the heap. *)
Lemma diff_same_entries h program newProgram getTarget :
  NoDup (keys key h (getTarget program)) ->
  same_entries h (getTarget program) (getTarget newProgram) ->
  _diffASTArrayTypes isEqual merge h program newProgram getTarget
  = (h, getTarget program).
Proof.
  intros Hnd Hcopy.
  destruct (_diffASTArrayTypes isEqual merge h program newProgram getTarget)
    as [h1 res] eqn:Hd.
  assert (h1 = h) as ->.
  { change h1 with (h1, res).1. rewrite <- Hd.
    apply diff_noop_heap; [done|].
    intros n Hn _. by eapply same_entries_elem. }
  f_equal.
  rewrite (diff_no_new_key isEqual merge key isEqual_key merge_replace_key
             _ _ _ _ _ _ Hd).
  - apply filter_all. intros o Ho. apply bool_decide_eq_true.
    rewrite (same_entries_keys _ _ _ Hcopy). by apply list_elem_of_fmap_2.
  - intros k. by rewrite (same_entries_keys _ _ _ Hcopy).
Qed.

Lemma keys_as_fmap (h : gmap loc T) l :
  keys key h l = key <$> (obj h <$> l).
Proof. unfold keys, keyOf. by rewrite <- list_fmap_compose. Qed.

(** With unique keys on both sides the values in the resulting array are
    those of the incoming array, up to the order. *)
Lemma diff_values_perm h program newProgram getTarget h1 res :
  _diffASTArrayTypes isEqual merge h program newProgram getTarget = (h1, res) ->
  NoDup (keys key h (getTarget program)) ->
  NoDup (keys key h (getTarget newProgram)) ->
  obj h1 <$> res ≡ₚ obj h <$> getTarget newProgram.
Proof.
  intros Hd Hcur Hinc.
  pose proof (diff_keys_NoDup isEqual merge key isEqual_key merge_replace_key
                _ _ _ _ _ _ Hd Hcur Hinc) as Hres.
  destruct (diff_values _ _ _ _ _ _ Hd Hcur) as [_ Hrest];
    [by apply alias_safe_unique|].
  apply NoDup_Permutation.
  - rewrite keys_as_fmap in Hres. by apply NoDup_fmap_1 in Hres.
  - rewrite keys_as_fmap in Hinc. by apply NoDup_fmap_1 in Hinc.
  - intros v. split.
    + intros [r [-> Hr]]%list_elem_of_fmap.
      apply (diff_elem_of isEqual merge key isEqual_key merge_replace_key
               _ _ _ _ _ _ _ Hd) in Hr as [[Hc|[Hn Hout]] Hin].
      * apply list_elem_of_fmap in Hin as [n [Hk Hn]].
        rewrite (diff_values_unique _ _ _ _ _ _ r n Hd); try done.
        by apply list_elem_of_fmap_2.
      * rewrite Hrest; [by apply list_elem_of_fmap_2|].
        left. intros Hc. apply Hout. by apply list_elem_of_fmap_2.
    + intros [n [-> Hn]]%list_elem_of_fmap.
      destruct (decide (keyOf key h n ∈ keys key h (getTarget program)))
        as [Hin|Hout].
      * apply list_elem_of_fmap in Hin as [c [Hk Hc]].
        rewrite <- (diff_values_unique _ _ _ _ _ _ c n Hd); try done.
        apply list_elem_of_fmap_2.
        apply (diff_elem_of isEqual merge key isEqual_key merge_replace_key
                 _ _ _ _ _ _ _ Hd).
        split; [by left|]. rewrite <- Hk. by apply list_elem_of_fmap_2.
      * rewrite <- Hrest.
        2:{ left. intros Hc. apply Hout. by apply list_elem_of_fmap_2. }
        apply list_elem_of_fmap_2.
        apply (diff_elem_of isEqual merge key isEqual_key merge_replace_key
                 _ _ _ _ _ _ _ Hd).
        split; [by right|]. by apply list_elem_of_fmap_2.
Qed.

End DiffValues.

(* --------------------------------------------------------------------- *)
(* diffAST on globals and components                                     *)
(* --------------------------------------------------------------------- *)

Lemma same_global_name_key a b :
  same_global_name a b = true <-> g_name a = g_name b.
Proof. apply String.eqb_eq. Qed.

Lemma same_component_name_key a b :
  same_component_name a b = true <-> c_name a = c_name b.
Proof. apply String.eqb_eq. Qed.

Lemma merge_Global_replace a b : merge_Global a b = b.
Proof. by destruct b. Qed.

Lemma merge_Component_replace a b : merge_Component a b = b.
Proof. by destruct b. Qed.

Lemma diffAST_inv st program newProgram st' program' :
  diffAST st program newProgram = (st', program') ->
  _diffASTArrayTypes same_global_name merge_Global
    (gheap st) program newProgram globals = (gheap st', globals program') /\
  _diffASTArrayTypes same_component_name merge_Component
    (cheap st) program newProgram components = (cheap st', components program').
Proof.
  unfold diffAST.
  destruct (_diffASTArrayTypes same_global_name _ _ _ _ _) as [hg gs].
  destruct (_diffASTArrayTypes same_component_name _ _ _ _ _) as [hc cs].
  intros Heq. by inversion Heq.
Qed.

Section ArrayOutcome.
Context {T : Type} `{!Inhabited T}.
Variable isEqual : T -> T -> bool.
Variable merge : T -> T -> T.
Variable key : T -> string.
Hypothesis isEqual_key : forall a b, isEqual a b = true <-> key a = key b.
Hypothesis merge_replace : forall a b, merge a b = b.

Let merge_key := merge_replace_key merge key merge_replace.

Lemma diff_keys_outcome h program newProgram getTarget h1 res :
  _diffASTArrayTypes isEqual merge h program newProgram getTarget = (h1, res) ->
  NoDup (keys key h (getTarget program)) ->
  NoDup (keys key h (getTarget newProgram)) ->
  keys_outcome (keys key h (getTarget program))
    (keys key h (getTarget newProgram)) (keys key h1 res).
Proof.
  intros Hd Hcur Hinc.
  pose proof (diff_keys_NoDup isEqual merge key isEqual_key merge_key
                _ _ _ _ _ _ Hd Hcur Hinc) as Hnd.
  pose proof (diff_keys_perm isEqual merge key isEqual_key merge_key
                _ _ _ _ _ _ Hd Hcur Hinc) as Hperm.
  pose proof (diff_keeps_current_order isEqual merge key isEqual_key merge_key
                _ _ _ _ _ _ Hd) as Hord.
  repeat split; try done.
  - intros Hsub. etransitivity; [|exact Hsub]. rewrite <- Hord.
    symmetry. apply filter_all. intros k Hk.
    apply bool_decide_eq_true.
    rewrite Hperm, <- Hsub in Hk.
    apply list_elem_of_In, filter_In in Hk as [Hk _].
    by apply list_elem_of_In.
  - intros l1 k l2 Hsplit Hbefore.
    assert (Hk : k ∉ l1 ++ l2).
    { rewrite Hsplit in Hinc.
      apply NoDup_app in Hinc as (_ & Hleft & Hright).
      apply NoDup_cons in Hright as [Hright _].
      intros [Hin|Hin]%elem_of_app; [|done].
      by apply (Hleft _ Hin), list_elem_of_here. }
    rewrite <- Hbefore in Hk.
    apply fmap_app_inv in Hsplit as (n1 & rest & Hl1 & Hrest & Hsplit).
    symmetry in Hrest.
    apply fmap_cons_inv in Hrest as (x & n2 & Hx & Hl2 & ->).
    pose proof (diff_shape isEqual merge key isEqual_key merge_key
                  _ _ _ _ _ _ Hd) as [Hkeys _].
    rewrite (diff_one_new_key isEqual merge key isEqual_key merge_key
               _ _ _ _ _ _ n1 x n2 Hd Hsplit); [| |by rewrite <- Hx].
    2:{ rewrite Hbefore, Hl1, Hl2. unfold keys. by rewrite fmap_app. }
    rewrite (keys_ext key h h1), Hsplit by done.
    unfold keys in *. rewrite !fmap_app, !fmap_cons, fmap_take, fmap_drop.
    rewrite Hbefore, <- (length_fmap (keyOf key h) n1), <- Hl1.
    rewrite take_app_length, drop_app_length.
    by rewrite Hl2.
Qed.
End ArrayOutcome.

(** C1 (as stated, refuted): it is not so that after [diffAST] the names
    of the current globals and components always stand in the order of
    the incoming ones.  With the components App, Button, Card current and
    Button, App, Card incoming, the current order stays App, Button,
    Card. *)
Lemma reconcile_order_not_incoming :
  ~ (forall st current incoming st' current',
        unique_names st current -> unique_names st incoming ->
        diffAST st current incoming = (st', current') ->
        global_names st' current' = global_names st incoming /\
        component_names st' current' = component_names st incoming).
Proof.
  intros H.
  destruct (H Sample.st Sample.current Sample.reordered
              (diffAST Sample.st Sample.current Sample.reordered).1
              (diffAST Sample.st Sample.current Sample.reordered).2)
    as [_ Hc].
  - split; decide_by_compute.
  - split; decide_by_compute.
  - by destruct (diffAST _ _ _).
  - vm_compute in Hc. discriminate Hc.
Qed.

(** C1 (amended): for current and incoming trees with unique names, after
    [diffAST] the names of the current globals, and likewise of the
    components, are the incoming names, each once; the names that were
    current before stand in their former order, whatever the incoming
    order; the sequence equals the incoming one when the incoming tree
    only leaves entries out, and when it is the current tree with one
    entry put in. *)
Theorem reconcile_keys_outcome st current incoming st' current' :
  unique_names st current -> unique_names st incoming ->
  diffAST st current incoming = (st', current') ->
  keys_outcome (global_names st current) (global_names st incoming)
    (global_names st' current') /\
  keys_outcome (component_names st current) (component_names st incoming)
    (component_names st' current').
Proof.
  intros [Hg Hc] [Hg' Hc'] [Hdg Hdc]%diffAST_inv.
  split.
  - apply (diff_keys_outcome same_global_name merge_Global g_name
             same_global_name_key merge_Global_replace _ _ _ _ _ _ Hdg Hg Hg').
  - apply (diff_keys_outcome same_component_name merge_Component c_name
             same_component_name_key merge_Component_replace
             _ _ _ _ _ _ Hdc Hc Hc').
Qed.

Lemma reconcile_keys_outcome_witness :
  keys_outcome ["text"] ["text"; "y"] ["text"; "y"] /\
  keys_outcome ["App"; "Button"; "Card"] ["App"; "Button"; "Card2"; "Card"]
    ["App"; "Button"; "Card2"; "Card"].
Proof.
  apply (reconcile_keys_outcome Sample.st Sample.current Sample.one_more
           (diffAST Sample.st Sample.current Sample.one_more).1
           (diffAST Sample.st Sample.current Sample.one_more).2).
  - split; decide_by_compute.
  - split; decide_by_compute.
  - vm_compute. reflexivity.
Defined.

Section ArrayEntries.
Context {T : Type} `{!Inhabited T}.
Variable isEqual : T -> T -> bool.
Variable merge : T -> T -> T.
Variable key : T -> string.
Hypothesis isEqual_key : forall a b, isEqual a b = true <-> key a = key b.
Hypothesis merge_replace : forall a b, merge a b = b.

Let merge_key := merge_replace_key merge key merge_replace.

Lemma diff_entries_outcome h program newProgram getTarget h1 res :
  _diffASTArrayTypes isEqual merge h program newProgram getTarget = (h1, res) ->
  NoDup (keys key h (getTarget program)) ->
  NoDup (keys key h (getTarget newProgram)) ->
  entries_outcome key h (getTarget program) (getTarget newProgram) h1 res.
Proof.
  intros Hd Hcur Hinc.
  pose proof (fun r => diff_elem_of isEqual merge key isEqual_key merge_key
                _ _ _ _ _ _ r Hd) as Hin.
  pose proof (diff_shape isEqual merge key isEqual_key merge_key
                _ _ _ _ _ _ Hd) as [Hkeys _].
  destruct (diff_values isEqual merge key isEqual_key merge_replace
              _ _ _ _ _ _ Hd Hcur) as [_ Hrest];
    [by apply alias_safe_unique|].
  split; [|split; [|split]].
  - intros r Hr Hk. split; [|split; [done|]].
    + apply Hin. split; [by left | done].
    + intros n Hn Hkn.
      by apply (diff_values_unique isEqual merge key isEqual_key merge_replace
                  _ _ _ _ _ _ r n Hd).
  - intros r Hr Hout Hk. apply Hout, Hin. split; [by left | done].
  - intros r Hr Hout.
    apply Hin in Hr as [[Hc|[Hn Hk]] _]; [done|].
    split; [done|]. split; [done|]. apply Hrest. by left.
  - pose proof (diff_keys_NoDup isEqual merge key isEqual_key merge_key
                  _ _ _ _ _ _ Hd Hcur Hinc) as Hnd.
    by apply NoDup_fmap_1 in Hnd.
Qed.

Lemma diff_duplicates_outcome h program newProgram getTarget h1 res :
  _diffASTArrayTypes isEqual merge h program newProgram getTarget = (h1, res) ->
  NoDup (keys key h (getTarget program)) ->
  (forall n, n ∈ getTarget newProgram -> n ∉ getTarget program) ->
  duplicates_outcome key h (getTarget program) (getTarget newProgram) h1 res.
Proof.
  intros Hd Hcur Hdisj.
  pose proof (fun r => diff_elem_of isEqual merge key isEqual_key merge_key
                _ _ _ _ _ _ r Hd) as Hin.
  destruct (diff_values isEqual merge key isEqual_key merge_replace
              _ _ _ _ _ _ Hd Hcur) as [Hlast _];
    [by apply alias_safe_disjoint|].
  split.
  - intros e l1 n l2 He Hsplit Hk Hl2. split.
    + apply Hin. split; [by left|]. rewrite <- Hk, Hsplit.
      apply list_elem_of_fmap_2, elem_of_app. right. by left.
    + by apply (Hlast e l1 n l2).
  - intros n Hn Hk. apply Hin. split; [by right|].
    by apply list_elem_of_fmap_2.
Qed.

Lemma same_entries_length (h : gmap loc T) original copy :
  same_entries h original copy -> length original = length copy.
Proof. apply Forall2_length. Qed.

Lemma diff_one_added h program newProgram getTarget h1 res :
  _diffASTArrayTypes isEqual merge h program newProgram getTarget = (h1, res) ->
  NoDup (keys key h (getTarget program)) ->
  one_added_outcome key h (getTarget program) (getTarget newProgram) h1 res.
Proof.
  intros Hd Hcur n1 x n2 Hsplit Hcopy Hx.
  assert (Hres : res = take (length n1) (getTarget program) ++ x ::
                       drop (length n1) (getTarget program)).
  { apply (diff_one_new_key isEqual merge key isEqual_key merge_key
             _ _ _ _ _ _ n1 x n2 Hd Hsplit); [|done].
    apply (same_entries_keys key _ _ _ Hcopy). }
  split; [done|]. split.
  - rewrite Hres.
    assert (length (take (length n1) (getTarget program)) = length n1) as E.
    { rewrite length_take. apply same_entries_length in Hcopy.
      rewrite Hcopy, length_app. lia. }
    rewrite <- E at 1. apply list_lookup_middle. done.
  - change h1 with (h1, res).1. rewrite <- Hd.
    apply (diff_noop_heap isEqual merge key isEqual_key merge_replace);
      [done|].
    intros n Hn Hk. rewrite Hsplit in Hn.
    apply (same_entries_elem _ _ _ n Hcopy).
    apply elem_of_app in Hn as [Hn|Hn]; apply elem_of_app; [by left|].
    apply elem_of_cons in Hn as [->|Hn]; [done | by right].
Qed.

Lemma diff_one_removed h program newProgram getTarget h1 res :
  _diffASTArrayTypes isEqual merge h program newProgram getTarget = (h1, res) ->
  NoDup (keys key h (getTarget program)) ->
  one_removed_outcome h (getTarget program) (getTarget newProgram) h1 res.
Proof.
  intros Hd Hcur c1 y c2 Hsplit Hcopy.
  pose proof (same_entries_keys key _ _ _ Hcopy) as Hkeys.
  assert (Hsub : forall k, k ∈ keys key h (getTarget newProgram) ->
                           k ∈ keys key h (getTarget program)).
  { intros k. rewrite Hkeys, Hsplit. unfold keys.
    rewrite !fmap_app, fmap_cons.
    intros [?|?]%elem_of_app; apply elem_of_app; [by left|].
    right. by right. }
  split.
  - rewrite (diff_no_new_key isEqual merge key isEqual_key merge_key
               _ _ _ _ _ _ Hd Hsub).
    rewrite Hkeys, Hsplit. rewrite Hsplit in Hcur.
    unfold keys in Hcur. rewrite fmap_app, fmap_cons in Hcur.
    apply NoDup_app in Hcur as (_ & Hleft & Hright).
    apply NoDup_cons in Hright as [Hy _].
    rewrite List.filter_app. simpl.
    rewrite bool_decide_false.
    2:{ unfold keys. rewrite fmap_app.
        intros [Hin|Hin]%elem_of_app; [|done].
        by apply (Hleft _ Hin), list_elem_of_here. }
    rewrite <- List.filter_app. apply filter_all.
    intros r Hr. apply bool_decide_eq_true. by apply list_elem_of_fmap_2.
  - change h1 with (h1, res).1. rewrite <- Hd.
    apply (diff_noop_heap isEqual merge key isEqual_key merge_replace);
      [done|].
    intros n Hn _.
    destruct (same_entries_elem _ _ _ n Hcopy Hn) as (c & Hc & Hrest).
    exists c. split; [|done]. rewrite Hsplit.
    apply elem_of_app in Hc as [?|?]; apply elem_of_app; [by left|].
    right. by right.
Qed.
End ArrayEntries.

(** C4: for current and incoming trees with unique names, every Global
    and every Component of the current tree whose name is incoming is
    still an entry after [diffAST], the same object, with its name and with
    the fields of the incoming entry of that name; an entry is gone only
    if its name is not incoming; an entry that was not there before is the
    incoming object itself, of a name no current entry had; no entry
    stands twice. *)
Theorem reconcile_keeps_identity st current incoming st' current' :
  unique_names st current -> unique_names st incoming ->
  diffAST st current incoming = (st', current') ->
  entries_outcome g_name (gheap st) (globals current) (globals incoming)
    (gheap st') (globals current') /\
  entries_outcome c_name (cheap st) (components current) (components incoming)
    (cheap st') (components current').
Proof.
  intros [Hg Hc] [Hg' Hc'] [Hdg Hdc]%diffAST_inv.
  split.
  - apply (diff_entries_outcome same_global_name merge_Global g_name
             same_global_name_key merge_Global_replace _ _ _ _ _ _ Hdg Hg Hg').
  - apply (diff_entries_outcome same_component_name merge_Component c_name
             same_component_name_key merge_Component_replace
             _ _ _ _ _ _ Hdc Hc Hc').
Qed.

Lemma reconcile_keeps_identity_witness :
  let r := diffAST Sample.st Sample.current Sample.edited in
  components r.2 = [1; 2; 3]%positive /\
  obj (cheap r.1) 1%positive = Sample.App_edited /\
  entries_outcome c_name Sample.heap_c [1; 2; 3]%positive [15; 12; 13]%positive
    (cheap r.1) (components r.2).
Proof.
  split; [by vm_compute|]. split; [by vm_compute|].
  apply (reconcile_keeps_identity Sample.st Sample.current Sample.edited
           (diffAST Sample.st Sample.current Sample.edited).1
           (diffAST Sample.st Sample.current Sample.edited).2).
  - split; decide_by_compute.
  - split; decide_by_compute.
  - by destruct (diffAST _ _ _).
Defined.

(** C6: for a tree with unique names, [diffAST] against a deep copy of
    it (the same entries in the same order with the same field values)
    changes nothing: the arrays hold the same objects in the same order and
    the store is as before. *)
Theorem reconcile_deep_copy st current copy :
  unique_names st current -> deep_copy st current copy ->
  diffAST st current copy = (st, current).
Proof.
  intros [Hg Hc] [Hcg Hcc]. unfold diffAST.
  rewrite (diff_same_entries same_global_name merge_Global g_name
             same_global_name_key merge_Global_replace _ _ _ _ Hg Hcg).
  rewrite (diff_same_entries same_component_name merge_Component c_name
             same_component_name_key merge_Component_replace _ _ _ _ Hc Hcc).
  by destruct st, current.
Qed.

Lemma reconcile_deep_copy_witness :
  diffAST Sample.st Sample.current Sample.copy = (Sample.st, Sample.current).
Proof.
  apply reconcile_deep_copy.
  - split; decide_by_compute.
  - split; unfold same_entries; decide_by_compute.
Defined.

(** C7: for a current tree with unique names, when the incoming array of
    components (or of globals) is the current one with one entry of a new
    name put in, [diffAST] puts that incoming object itself into the
    current array at its incoming index and leaves every other entry in
    place with its fields; when the incoming array is the current one
    without one entry, [diffAST] takes exactly that entry out and leaves
    every other entry in place with its fields. *)
Theorem reconcile_one_entry st current incoming st' current' :
  unique_names st current ->
  diffAST st current incoming = (st', current') ->
  (one_added_outcome c_name (cheap st) (components current)
     (components incoming) (cheap st') (components current') /\
   one_removed_outcome (cheap st) (components current)
     (components incoming) (cheap st') (components current')) /\
  (one_added_outcome g_name (gheap st) (globals current)
     (globals incoming) (gheap st') (globals current') /\
   one_removed_outcome (gheap st) (globals current)
     (globals incoming) (gheap st') (globals current')).
Proof.
  intros [Hg Hc] [Hdg Hdc]%diffAST_inv.
  split; split.
  - apply (diff_one_added same_component_name merge_Component c_name
             same_component_name_key merge_Component_replace
             _ _ _ _ _ _ Hdc Hc).
  - apply (diff_one_removed same_component_name merge_Component c_name
             same_component_name_key merge_Component_replace
             _ _ _ _ _ _ Hdc Hc).
  - apply (diff_one_added same_global_name merge_Global g_name
             same_global_name_key merge_Global_replace _ _ _ _ _ _ Hdg Hg).
  - apply (diff_one_removed same_global_name merge_Global g_name
             same_global_name_key merge_Global_replace _ _ _ _ _ _ Hdg Hg).
Qed.

Lemma reconcile_one_entry_witness :
  components (diffAST Sample.st Sample.current Sample.one_more).2
  = [1; 2; 14; 3]%positive /\
  cheap (diffAST Sample.st Sample.current Sample.one_more).1 = Sample.heap_c /\
  components (diffAST Sample.st Sample.current Sample.one_less).2
  = [1; 3]%positive /\
  cheap (diffAST Sample.st Sample.current Sample.one_less).1 = Sample.heap_c.
Proof.
  assert (Hu : unique_names Sample.st Sample.current)
    by (split; decide_by_compute).
  destruct (reconcile_one_entry Sample.st Sample.current Sample.one_more
              (diffAST Sample.st Sample.current Sample.one_more).1
              (diffAST Sample.st Sample.current Sample.one_more).2 Hu)
    as [[Hadd _] _]; [by destruct (diffAST _ _ _)|].
  destruct (reconcile_one_entry Sample.st Sample.current Sample.one_less
              (diffAST Sample.st Sample.current Sample.one_less).1
              (diffAST Sample.st Sample.current Sample.one_less).2 Hu)
    as [[_ Hdel] _]; [by destruct (diffAST _ _ _)|].
  destruct (Hadd [11; 12]%positive 14%positive [13%positive])
    as (Hres & _ & Hheap).
  - reflexivity.
  - unfold same_entries. decide_by_compute.
  - decide_by_compute.
  - destruct (Hdel [1%positive] 2%positive [3%positive]) as (Hres' & Hheap').
    + reflexivity.
    + unfold same_entries. decide_by_compute.
    + repeat split; assumption.
Defined.

(** The edit of the specification, section 8: the text [val text = "A";]
    becomes [val text = "B"; val y = 1;].  The global object stays and
    holds B, the parsed global y is appended at index 1, the components
    are as before. *)
Example scenario_edit_and_append :
  let r := diffAST Sample.st Sample.current Sample.one_more in
  globals r.2 = [1; 12]%positive /\
  obj (gheap r.1) 1%positive = Sample.text_B /\
  obj (gheap r.1) 12%positive = Sample.y_1.
Proof. by vm_compute. Qed.

(** Two entries put in side by side: the second splice adds the position
    in the pending list to an index that is already the incoming one, so
    Footer lands behind Button instead of before it. *)
Example several_insertions_misplaced :
  component_names Sample.st Sample.two_more
  = ["App"; "Card2"; "Footer"; "Button"; "Card"] /\
  component_names (diffAST Sample.st Sample.current Sample.two_more).1
    (diffAST Sample.st Sample.current Sample.two_more).2
  = ["App"; "Card2"; "Button"; "Footer"; "Card"].
Proof. by vm_compute. Qed.

(** An entry put in behind entries that are removed: the splice counts
    the entries that are still to be removed. *)
Example insertion_with_removal_misplaced :
  component_names Sample.st Sample.swapped_for_new = ["Card"; "Card2"] /\
  component_names (diffAST Sample.st Sample.current Sample.swapped_for_new).1
    (diffAST Sample.st Sample.current Sample.swapped_for_new).2
  = ["Card2"; "Card"].
Proof. by vm_compute. Qed.

(** Two incoming components named App: the current App is merged with
    both in turn and keeps the fields of the second. *)
Example duplicate_last_wins :
  let r := diffAST Sample.st Sample.current Sample.twice in
  components r.2 = [1; 2; 3]%positive /\
  obj (cheap r.1) 1%positive = Sample.App_other.
Proof. by vm_compute. Qed.

(** C3 (as stated, refuted): it is not so that [diffAST] ends with an
    error whenever two incoming components have the same name.  With two
    incoming components named App it completes normally. *)
Lemma reconcile_duplicates_no_error :
  ~ (forall st current incoming,
        ~ NoDup (component_names st incoming) ->
        exists message, reconcile st current incoming = Throw message).
Proof.
  intros H.
  destruct (H Sample.st Sample.current Sample.twice) as [message Hm].
  - decide_by_compute.
  - discriminate Hm.
Qed.

(** C3 (amended): [diffAST] does not check the incoming names and reports
    no error.  For a current tree with unique names and an incoming tree
    of other objects, whatever the incoming names, it completes normally:
    every current entry whose name is incoming stays and holds the fields
    of the last incoming entry of that name, and every incoming entry
    whose name no current entry has is put in, also when its name
    repeats. *)
Theorem reconcile_duplicates_merged st current incoming :
  unique_names st current -> disjoint_objects current incoming ->
  exists st' current',
    reconcile st current incoming = Normal (st', current') /\
    duplicates_outcome g_name (gheap st) (globals current) (globals incoming)
      (gheap st') (globals current') /\
    duplicates_outcome c_name (cheap st) (components current)
      (components incoming) (cheap st') (components current').
Proof.
  intros [Hg Hc] [Hdg Hdc].
  destruct (diffAST st current incoming) as [st' current'] eqn:Hd.
  exists st', current'. split; [unfold reconcile; by rewrite Hd|].
  apply diffAST_inv in Hd as [Hd1 Hd2]. split.
  - apply (diff_duplicates_outcome same_global_name merge_Global g_name
             same_global_name_key merge_Global_replace
             _ _ _ _ _ _ Hd1 Hg Hdg).
  - apply (diff_duplicates_outcome same_component_name merge_Component c_name
             same_component_name_key merge_Component_replace
             _ _ _ _ _ _ Hd2 Hc Hdc).
Qed.

Lemma reconcile_duplicates_merged_witness :
  exists st' current',
    reconcile Sample.st Sample.current Sample.twice = Normal (st', current') /\
    duplicates_outcome g_name Sample.heap_g [1%positive] [13%positive]
      (gheap st') (globals current') /\
    duplicates_outcome c_name Sample.heap_c [1; 2; 3]%positive
      [15; 12; 16; 13]%positive (cheap st') (components current').
Proof.
  apply (reconcile_duplicates_merged Sample.st Sample.current Sample.twice).
  - split; decide_by_compute.
  - split; intros r Hr; unfold Sample.twice in Hr; simpl in Hr;
      repeat (apply elem_of_cons in Hr as [->|Hr]; [decide_by_compute|]);
      inversion Hr.
Defined.

(* --------------------------------------------------------------------- *)
(* The callbacks of the component                                        *)
(* --------------------------------------------------------------------- *)

Lemma substring_0_0 (s : string) : String.substring 0 0 s = "".
Proof. by destruct s. Qed.

Lemma substring_at_end (s : string) :
  String.substring (String.length s) 0 s = "".
Proof. induction s as [|c s IH]; [done | exact IH]. Qed.

Lemma append_empty_r (s : string) : (s ++ "")%string = s.
Proof.
  induction s as [|c s IH]; [done |].
  change (String c (s ++ "")%string = String c s). by rewrite IH.
Qed.

(** Replacing from 0 to the length of the document leaves the inserted
    text and nothing else. *)
Lemma apply_transaction_whole (doc insert : string) :
  apply_transaction (mkTransaction 0 (String.length doc) insert) doc = insert.
Proof.
  unfold apply_transaction. simpl.
  rewrite substring_0_0, Nat.sub_diag, substring_at_end.
  change (insert ++ "" = insert)%string.
  apply append_empty_r.
Qed.

Lemma onExternalChange_guard s :
  isSynchingFromCodeMirror s = true \/ isTypingRef s = true ->
  onExternalChange s = s.
Proof.
  intros [H|H]; unfold onExternalChange; rewrite H; [done|].
  by rewrite orb_true_r.
Qed.

Lemma reconcile_passes_frame newAST s :
  let s' := reconcile_passes newAST s in
  currentCodeStringRef s' = currentCodeStringRef s /\
  isSynchingFromCodeMirror s' = isSynchingFromCodeMirror s /\
  isSynchingFromExternal s' = isSynchingFromExternal s /\
  isTypingRef s' = isTypingRef s /\
  codemirrorView s' = codemirrorView s /\
  debounced s' = debounced s /\
  microtasks s' = microtasks s /\
  onStatusChange s' = onStatusChange s /\
  statuses s' = statuses s.
Proof.
  unfold reconcile_passes.
  destruct (diffAST (store s) (currentStateRef s) newAST) as [st1 cached].
  destruct (diffAST st1 (reka_program s) cached) as [st2 live].
  by repeat split.
Qed.

Section EditorFacts.
Variable parseProgram : string -> Completion ProgramTree.
Variable stringify : ProgramTree -> string.

(** The text-to-graph pass on a text that parses: the two reconciles
    run, the change event is dropped by the guard, success is
    reported. *)
Lemma syncCodeToState_parsed code tree s :
  isSynchingFromExternal s = false ->
  parseProgram code = Normal tree ->
  syncCodeToState parseProgram code s
  = set_isTypingRef false
      (set_isSynchingFromCodeMirror false
         (emit SuccessStatus
            (reconcile_passes (instantiate (store s) tree).2
               (set_store (instantiate (store s) tree).1
                  (set_isSynchingFromCodeMirror true s))))).
Proof.
  intros Hflag Hparse. unfold syncCodeToState. rewrite Hflag, Hparse.
  simpl. destruct (instantiate (store s) tree) as [st newAST]. simpl.
  unfold reka_change. rewrite onExternalChange_guard; [done|].
  left. by destruct (reconcile_passes_frame newAST
    (set_store st (set_isSynchingFromCodeMirror true s)))
    as (_ & -> & _).
Qed.

Lemma syncCodeToState_failed code message s :
  isSynchingFromExternal s = false ->
  parseProgram code = Throw message ->
  syncCodeToState parseProgram code s
  = set_isTypingRef false
      (set_isSynchingFromCodeMirror false
         (emit (ErrorStatus message)
            (set_isSynchingFromCodeMirror true s))).
Proof.
  intros Hflag Hparse. unfold syncCodeToState. by rewrite Hflag, Hparse.
Qed.

(** What the text-to-graph pass never touches. *)
Lemma syncCodeToState_frame code s :
  let s' := syncCodeToState parseProgram code s in
  currentCodeStringRef s' = currentCodeStringRef s /\
  isSynchingFromExternal s' = isSynchingFromExternal s /\
  codemirrorView s' = codemirrorView s /\
  debounced s' = debounced s /\
  microtasks s' = microtasks s.
Proof.
  destruct (isSynchingFromExternal s) eqn:Hflag.
  { unfold syncCodeToState. by rewrite Hflag. }
  destruct (parseProgram code) as [tree|message] eqn:Hparse.
  - cbv zeta. rewrite (syncCodeToState_parsed code tree s Hflag Hparse).
    set (s1 := set_store _ _).
    destruct (reconcile_passes_frame (instantiate (store s) tree).2 s1)
      as (H1 & H2 & H3 & H4 & H5 & H6 & H7 & H8 & H9).
    unfold emit. rewrite H8.
    destruct (onStatusChange s1); simpl; rewrite ?H1, ?H3, ?H5, ?H6, ?H7;
      by rewrite ?Hflag.
  - cbv zeta. rewrite (syncCodeToState_failed code message s Hflag Hparse).
    unfold emit. simpl. destruct (onStatusChange s); simpl; by rewrite ?Hflag.
Qed.

Lemma updateListener_guard view s :
  isSynchingFromExternal s = true -> updateListener view s = s.
Proof.
  intros H. unfold updateListener. by rewrite H, orb_true_r.
Qed.

(** The graph-to-text pass, as queued by [onExternalChange]: the flag is
    set and the view is mounted. *)
Lemma syncStateToCode_same s :
  stringify (read_tree (store s) (reka_program s)) = currentCodeStringRef s ->
  syncStateToCode stringify s = set_isSynchingFromExternal false s.
Proof.
  intros Heq. unfold syncStateToCode. by rewrite Heq, String.eqb_refl.
Qed.

Lemma syncStateToCode_differs s doc :
  stringify (read_tree (store s) (reka_program s)) <> currentCodeStringRef s ->
  isSynchingFromExternal s = true ->
  codemirrorView s = Some doc ->
  syncStateToCode stringify s
  = set_isSynchingFromExternal false
      (set_codemirrorView
         (Some (stringify (read_tree (store s) (reka_program s))))
         (set_currentCodeStringRef
            (stringify (read_tree (store s) (reka_program s)))
            (set_currentStateRef (fromJSON (store s) (reka_program s)).2
               (set_store (fromJSON (store s) (reka_program s)).1 s)))).
Proof.
  intros Hne Hflag Hview. unfold syncStateToCode.
  apply String.eqb_neq in Hne. rewrite Hne.
  destruct (fromJSON (store s) (reka_program s)) as [st copy]. simpl.
  rewrite Hview. unfold dispatch. simpl. rewrite Hview.
  rewrite apply_transaction_whole.
  rewrite updateListener_guard; done.
Qed.
End EditorFacts.

(* --------------------------------------------------------------------- *)
(* Fresh objects                                                         *)
(* --------------------------------------------------------------------- *)

Lemma alloc_all_spec {T : Type} `{!Inhabited T} (h : gmap loc T) vs h' rs :
  alloc_all h vs = (h', rs) ->
  obj h' <$> rs = vs /\
  (forall r, is_Some (h !! r) -> h' !! r = h !! r).
Proof.
  revert h h' rs. induction vs as [|v vs IH]; intros h h' rs Ha; simpl in Ha.
  { inversion Ha; subst. done. }
  destruct (alloc_all (<[fresh (dom h) := v]> h) vs) as [h2 rs2] eqn:Hrest.
  inversion Ha; subst. clear Ha.
  destruct (IH _ _ _ Hrest) as [Hvals Hold].
  assert (Hfresh : h !! fresh (dom h) = None)
    by (apply not_elem_of_dom, is_fresh).
  split.
  - rewrite fmap_cons, Hvals. f_equal.
    unfold obj. rewrite lookup_total_alt, Hold.
    + by rewrite lookup_insert_eq.
    + rewrite lookup_insert_eq. by eexists.
  - intros r Hr.
    assert (r <> fresh (dom h)).
    { intros ->. rewrite Hfresh in Hr. by destruct Hr. }
    rewrite Hold.
    + by rewrite lookup_insert_ne.
    + by rewrite lookup_insert_ne.
Qed.

Lemma alloc_all_obj {T : Type} `{!Inhabited T} (h : gmap loc T) vs h' rs r :
  alloc_all h vs = (h', rs) -> is_Some (h !! r) -> obj h' r = obj h r.
Proof.
  intros Ha Hr. apply alloc_all_spec in Ha as [_ Hold].
  unfold obj. by rewrite !lookup_total_alt, Hold.
Qed.

Lemma instantiate_inv st tree st1 newAST :
  instantiate st tree = (st1, newAST) ->
  alloc_all (gheap st) (tree_globals tree) = (gheap st1, globals newAST) /\
  alloc_all (cheap st) (tree_components tree) = (cheap st1, components newAST).
Proof.
  unfold instantiate.
  destruct (alloc_all (gheap st) _) as [hg gs].
  destruct (alloc_all (cheap st) _) as [hc cs].
  intros Heq. by inversion Heq.
Qed.

(** A fresh copy holds the fields of its original. *)
Lemma fromJSON_read_tree st p st1 copy :
  fromJSON st p = (st1, copy) -> read_tree st1 copy = read_tree st p.
Proof.
  intros [Hg Hc]%instantiate_inv.
  apply alloc_all_spec in Hg as [Hg _]. apply alloc_all_spec in Hc as [Hc _].
  unfold read_tree. by rewrite Hg, Hc.
Qed.


Section EditorClaims.
Variable parseProgram : string -> Completion ProgramTree.
Variable stringify : ProgramTree -> string.

Lemma flush_idle s : microtasks s = 0 -> flush stringify s = s.
Proof. intros H. unfold flush. by rewrite H. Qed.

Lemma flush_one s :
  microtasks s = 1 ->
  flush stringify s = syncStateToCode stringify (set_microtasks 0 s).
Proof. intros H. unfold flush, run_microtask. rewrite H. simpl. by rewrite H. Qed.

Lemma external_frame g s :
  let s' := external g s in
  currentStateRef s' = currentStateRef s /\
  currentCodeStringRef s' = currentCodeStringRef s /\
  isSynchingFromCodeMirror s' = isSynchingFromCodeMirror s /\
  isSynchingFromExternal s' = isSynchingFromExternal s /\
  isTypingRef s' = isTypingRef s /\
  codemirrorView s' = codemirrorView s /\
  debounced s' = debounced s /\
  microtasks s' = microtasks s /\
  onStatusChange s' = onStatusChange s /\
  statuses s' = statuses s.
Proof.
  unfold external. destruct (g (store s, reka_program s)) as [st p].
  by repeat split.
Qed.

Lemma quiescent_after_notification s :
  quiescent s -> quiescent (flush stringify (onExternalChange s)).
Proof.
  intros (Hflag & Hq & Hdoc). unfold onExternalChange.
  destruct (isSynchingFromCodeMirror s || isTypingRef s).
  { rewrite flush_idle by done. by repeat split. }
  destruct (codemirrorView s) as [doc|] eqn:Hview.
  2:{ rewrite flush_idle by done. repeat split; try done.
      intros d Hd. congruence. }
  rewrite Hflag, flush_one by (simpl; by rewrite Hq).
  set (s1 := set_microtasks 0 _).
  destruct (decide (stringify (read_tree (store s1) (reka_program s1))
                    = currentCodeStringRef s1)) as [Heq|Hne].
  - rewrite syncStateToCode_same by done.
    split; [done|]. split; [done|]. subst s1. simpl.
    intros d Hd. apply Hdoc. congruence.
  - rewrite (syncStateToCode_differs stringify s1 doc) by done.
    split; [done|]. split; [done|]. simpl. intros d Hd. by inversion Hd.
Qed.

(** Between two turns no graph-to-text pass is queued or in flight, and
    the cached code string is the document of the view. *)
Lemma reachable_quiescent s :
  reachable parseProgram stringify s -> quiescent s.
Proof.
  induction 1 as [st program handler | s s' Hreach IH Hstep].
  - unfold initial. destruct (fromJSON st program) as [st1 copy].
    by repeat split.
  - destruct IH as (Hflag & Hq & Hdoc).
    destruct Hstep as [s | s doc view Hview Hsame | s code Hcode | s g].
    + repeat split; try done. simpl. intros d Hd. by inversion Hd.
    + unfold updateListener. simpl. rewrite Hflag, orb_false_r.
      destruct (docChanged view) eqn:Hchanged; simpl.
      * rewrite flush_idle.
        -- unfold emit. simpl. destruct (onStatusChange s); simpl;
             repeat split; try done; simpl; intros d Hd; by inversion Hd.
        -- unfold emit. simpl. by destruct (onStatusChange s).
      * rewrite flush_idle by done.
        repeat split; try done. simpl. intros d Hd. inversion Hd; subst.
        rewrite Hsame by done. by apply Hdoc.
    + destruct (syncCodeToState_frame parseProgram code (set_debounced None s))
        as (H1 & H2 & H3 & H4 & H5).
      rewrite flush_idle by (by rewrite H5).
      split; [by rewrite H2|]. split; [by rewrite H5|].
      intros d Hd. rewrite H1. rewrite H3 in Hd. by apply Hdoc.
    + unfold reka_change. apply quiescent_after_notification.
      destruct (external_frame g s)
        as (_ & H2 & _ & H4 & _ & H6 & _ & H8 & _).
      split; [by rewrite H4|]. split; [by rewrite H8|].
      intros d Hd. rewrite H2. rewrite H6 in Hd. by apply Hdoc.
Qed.
Lemma notification_queued s :
  quiescent s ->
  isSynchingFromExternal (onExternalChange s) = true ->
  onExternalChange s
  = set_microtasks 1 (set_isSynchingFromExternal true s).
Proof.
  intros (Hflag & Hq & _). unfold onExternalChange.
  destruct (isSynchingFromCodeMirror s || isTypingRef s); [congruence|].
  destruct (codemirrorView s); [|congruence].
  rewrite Hflag, Hq. done.
Qed.

(** C5: when the parser fails on the text, the text-to-graph pass
    returns with the store, the live graph and the cached snapshot as
    they were, the status handler, if one is given, has received one
    more call, an error status with the message of the parser, and the
    two flags of the pass are cleared; the failure is consumed by the
    catch branch. *)
Theorem parse_failure_reported code message s :
  isSynchingFromExternal s = false ->
  parseProgram code = Throw message ->
  let s' := syncCodeToState parseProgram code s in
  store s' = store s /\
  reka_program s' = reka_program s /\
  currentStateRef s' = currentStateRef s /\
  statuses s'
  = (if onStatusChange s then statuses s ++ [ErrorStatus message]
     else statuses s) /\
  isSynchingFromCodeMirror s' = false /\
  isTypingRef s' = false /\
  currentCodeStringRef s' = currentCodeStringRef s /\
  codemirrorView s' = codemirrorView s /\
  microtasks s' = microtasks s.
Proof.
  intros Hflag Hparse. cbv zeta.
  rewrite (syncCodeToState_failed parseProgram code message s Hflag Hparse).
  unfold emit. simpl. by destruct (onStatusChange s).
Qed.


(** C8: the change notification that arrives while the text-to-graph
    pass is in flight is without effect, and so is the document change
    that arrives while the graph-to-text pass is in flight.  Hence the
    text-to-graph pass queues no graph-to-text pass and schedules no
    further call of itself, the graph-to-text pass schedules no
    text-to-graph call, and after one change of the document and the one
    timer turn it schedules, nothing is pending. *)
Theorem no_echo :
  (forall s, isSynchingFromCodeMirror s = true -> onExternalChange s = s) /\
  (forall s view,
      isSynchingFromExternal s = true -> updateListener view s = s) /\
  (forall s code,
      let s' := syncCodeToState parseProgram code s in
      microtasks s' = microtasks s /\
      isSynchingFromExternal s' = isSynchingFromExternal s /\
      debounced s' = debounced s) /\
  (forall s doc,
      isSynchingFromExternal s = true ->
      codemirrorView s = Some doc ->
      let s' := syncStateToCode stringify s in
      debounced s' = debounced s /\
      isTypingRef s' = isTypingRef s /\
      statuses s' = statuses s /\
      microtasks s' = microtasks s) /\
  (forall s view,
      quiescent s ->
      docChanged view = true ->
      let s1 := flush stringify
                  (updateListener view
                     (set_codemirrorView (Some (state_doc view)) s)) in
      let s2 := flush stringify
                  (syncCodeToState parseProgram (state_doc view)
                     (set_debounced None s1)) in
      debounced s1 = Some (state_doc view) /\
      microtasks s1 = 0 /\
      debounced s2 = None /\
      microtasks s2 = 0 /\
      isSynchingFromExternal s2 = false).
Proof.
  split; [|split; [|split; [|split]]].
  - intros s H. apply onExternalChange_guard. by left.
  - intros s view H. by apply updateListener_guard.
  - intros s code.
    destruct (syncCodeToState_frame parseProgram code s)
      as (_ & H2 & _ & H4 & H5).
    by repeat split.
  - intros s doc Hflag Hview.
    destruct (decide (stringify (read_tree (store s) (reka_program s))
                      = currentCodeStringRef s)) as [Heq|Hne].
    + cbv zeta. by rewrite syncStateToCode_same.
    + cbv zeta. by rewrite (syncStateToCode_differs stringify s doc).
  - intros s view (Hflag & Hq & _) Hchanged. cbv zeta.
    assert (Hs1 : flush stringify
              (updateListener view
                 (set_codemirrorView (Some (state_doc view)) s))
            = set_debounced (Some (state_doc view))
                (emit ParsingStatus
                   (set_currentCodeStringRef (state_doc view)
                      (set_isTypingRef true
                         (set_codemirrorView (Some (state_doc view)) s))))).
    { unfold updateListener. simpl. rewrite Hchanged, Hflag. simpl.
      rewrite flush_idle.
      - unfold emit. simpl. by destruct (onStatusChange s).
      - unfold emit. simpl. by destruct (onStatusChange s). }
    rewrite Hs1. set (s1 := set_debounced (Some _) _).
    assert (Hm1 : microtasks s1 = 0)
      by (subst s1; unfold emit; simpl; by destruct (onStatusChange s)).
    assert (Hf1 : isSynchingFromExternal s1 = false)
      by (subst s1; unfold emit; simpl; by destruct (onStatusChange s)).
    split; [done|]. split; [done|].
    destruct (syncCodeToState_frame parseProgram (state_doc view)
                (set_debounced None s1)) as (_ & H2 & _ & H4 & H5).
    rewrite flush_idle by (by rewrite H5).
    rewrite H4, H5, H2. by repeat split.
Qed.

(** The graph-to-text pass once queued: when a change of the graph
    from outside has queued the
    graph-to-text pass, the pass prints the live graph and compares the
    text with the document of the editor.  If they differ, the document
    is replaced from position 0 to its end, so that it is the printed
    text, the cached code string is the printed text and the cached
    snapshot is a fresh copy of the live graph, with its fields.  If they are equal, the
    document, the cached snapshot, the cached code string and the store
    are as before. *)
Lemma graph_to_text_pass s0 g doc :
  reachable parseProgram stringify s0 ->
  let s := reka_change (external g) s0 in
  isSynchingFromExternal s = true ->
  codemirrorView s = Some doc ->
  let newCode := stringify (read_tree (store s) (reka_program s)) in
  let s' := run_microtask stringify s in
  (newCode <> doc ->
     codemirrorView s'
     = Some (apply_transaction
               (mkTransaction 0 (String.length doc) newCode) doc) /\
     codemirrorView s' = Some newCode /\
     currentCodeStringRef s' = newCode /\
     (store s', currentStateRef s') = fromJSON (store s) (reka_program s) /\
     read_tree (store s') (currentStateRef s')
     = read_tree (store s) (reka_program s)) /\
  (newCode = doc ->
     codemirrorView s' = Some doc /\
     currentStateRef s' = currentStateRef s /\
     currentCodeStringRef s' = currentCodeStringRef s /\
     store s' = store s).
Proof.
  intros Hreach s Hflag Hview newCode s'.
  apply reachable_quiescent in Hreach as (Hflag0 & Hq0 & Hdoc0).
  destruct (external_frame g s0)
    as (_ & H2 & _ & H4 & _ & H6 & _ & H8 & _).
  assert (Hq : quiescent (external g s0)).
  { split; [by rewrite H4|]. split; [by rewrite H8|].
    intros d Hd. rewrite H2. rewrite H6 in Hd. by apply Hdoc0. }
  assert (Hs : s = set_microtasks 1
                     (set_isSynchingFromExternal true (external g s0)))
    by (by apply notification_queued).
  assert (Hcode : currentCodeStringRef s = doc).
  { destruct Hq as (_ & _ & Hdoc). rewrite Hs. simpl. apply Hdoc.
    rewrite Hs in Hview. exact Hview. }
  assert (Hrun : s' = syncStateToCode stringify (set_microtasks 0 s)).
  { unfold s', run_microtask. by rewrite Hs. }
  split.
  - intros Hne.
    rewrite Hrun, (syncStateToCode_differs stringify _ doc);
      [| simpl; by rewrite Hcode | done | done].
    simpl. rewrite apply_transaction_whole.
    repeat split; try done.
    + by destruct (fromJSON (store s) (reka_program s)).
    + apply fromJSON_read_tree.
      by destruct (fromJSON (store s) (reka_program s)).
  - intros Heq.
    rewrite Hrun, syncStateToCode_same by (simpl; by rewrite Hcode).
    by repeat split.
Qed.

End EditorClaims.

(* --------------------------------------------------------------------- *)
(* The two reconcile passes of the text-to-graph pass                    *)
(* --------------------------------------------------------------------- *)

Section TwoPasses.
Context {T : Type} `{!Inhabited T}.
Variable isEqual : T -> T -> bool.
Variable merge : T -> T -> T.
Variable key : T -> string.
Hypothesis isEqual_key : forall a b, isEqual a b = true <-> key a = key b.
Hypothesis merge_replace : forall a b, merge a b = b.

Let merge_key := merge_replace_key merge key merge_replace.

(** The cached array is reconciled with the parsed one, then the live
    array with the cached one: the live array ends with the parsed
    values, and a live entry whose key is not parsed is gone. *)
Lemma diff_twice h cached live parsed cached' getTarget h1 c1 h2 l2 :
  _diffASTArrayTypes isEqual merge h cached parsed getTarget = (h1, c1) ->
  getTarget cached' = c1 ->
  _diffASTArrayTypes isEqual merge h1 live cached' getTarget = (h2, l2) ->
  NoDup (keys key h (getTarget cached)) ->
  NoDup (keys key h (getTarget live)) ->
  NoDup (keys key h (getTarget parsed)) ->
  obj h2 <$> l2 ≡ₚ obj h <$> getTarget parsed /\
  (forall r, r ∈ getTarget live -> r ∈ l2 ->
             keyOf key h r ∈ keys key h (getTarget parsed)).
Proof.
  intros Hd1 Hc1 Hd2 Hcached Hlive Hparsed.
  pose proof (diff_shape isEqual merge key isEqual_key merge_key
                _ _ _ _ _ _ Hd1) as [Hk1 _].
  pose proof (diff_keys_NoDup isEqual merge key isEqual_key merge_key
                _ _ _ _ _ _ Hd1 Hcached Hparsed) as Hnd1.
  assert (Hlive1 : NoDup (keys key h1 (getTarget live)))
    by (by rewrite (keys_ext key h h1)).
  rewrite <- Hc1 in Hnd1.
  split.
  - rewrite (diff_values_perm isEqual merge key isEqual_key merge_replace
               _ _ _ _ _ _ Hd2 Hlive1 Hnd1).
    rewrite Hc1.
    apply (diff_values_perm isEqual merge key isEqual_key merge_replace
             _ _ _ _ _ _ Hd1 Hcached Hparsed).
  - intros r Hr Hres.
    apply (diff_elem_of isEqual merge key isEqual_key merge_key
             _ _ _ _ _ _ r Hd2) in Hres as [_ Hin].
    rewrite Hc1, Hk1 in Hin.
    by apply (diff_keys_elem_of isEqual merge key isEqual_key merge_key
                _ _ _ _ _ _ _ Hd1) in Hin.
Qed.
End TwoPasses.

Lemma keys_allocated {T : Type} `{!Inhabited T} (key : T -> string)
    (h h' : gmap loc T) (l : list loc) :
  (forall r, is_Some (h !! r) -> obj h' r = obj h r) ->
  Forall (fun r => is_Some (h !! r)) l ->
  keys key h' l = keys key h l.
Proof.
  intros Hold Hall. unfold keys. apply list_fmap_ext.
  intros i r Hr. unfold keyOf. rewrite Hold; [done|].
  rewrite Forall_forall in Hall. apply Hall.
  by eapply list_elem_of_lookup_2.
Qed.

Lemma reconcile_passes_graph newAST s st1 cached st2 live :
  diffAST (store s) (currentStateRef s) newAST = (st1, cached) ->
  diffAST st1 (reka_program s) cached = (st2, live) ->
  store (reconcile_passes newAST s) = st2 /\
  reka_program (reconcile_passes newAST s) = live /\
  currentStateRef (reconcile_passes newAST s) = cached.
Proof.
  intros H1 H2. unfold reconcile_passes. by rewrite H1, H2.
Qed.

Lemma emit_graph status s :
  store (emit status s) = store s /\
  reka_program (emit status s) = reka_program s /\
  currentStateRef (emit status s) = currentStateRef s.
Proof. unfold emit. by destruct (onStatusChange s). Qed.

(** C2 (amended): when the text parses, with unique names in the text, in
    the live graph and in the cached snapshot, then after the
    text-to-graph pass the globals and the components of the live graph
    are those of the parsed text, up to their order: the edit of the user
    is in the graph, and every entry of the live graph whose name is not
    in the text, such as a component that a peer added while the user was
    typing, has been removed by the second reconcile pass. *)
Theorem text_sync_overwrites_graph
    (parseProgram : string -> Completion ProgramTree) code tree s :
  isSynchingFromExternal s = false ->
  parseProgram code = Normal tree ->
  NoDup (g_name <$> tree_globals tree) ->
  NoDup (c_name <$> tree_components tree) ->
  unique_names (store s) (reka_program s) ->
  unique_names (store s) (currentStateRef s) ->
  allocated (store s) (reka_program s) ->
  allocated (store s) (currentStateRef s) ->
  let s' := syncCodeToState parseProgram code s in
  tree_globals (read_tree (store s') (reka_program s')) ≡ₚ tree_globals tree /\
  tree_components (read_tree (store s') (reka_program s'))
    ≡ₚ tree_components tree /\
  (forall r, r ∈ globals (reka_program s) ->
     g_name (obj (gheap (store s)) r) ∉ (g_name <$> tree_globals tree) ->
     r ∉ globals (reka_program s')) /\
  (forall r, r ∈ components (reka_program s) ->
     c_name (obj (cheap (store s)) r) ∉ (c_name <$> tree_components tree) ->
     r ∉ components (reka_program s')).
Proof.
  intros Hflag Hparse Htg Htc [Hlg Hlc] [Hcg Hcc] [Hag Hac] [Hbg Hbc]. cbv zeta.
  rewrite (syncCodeToState_parsed parseProgram code tree s Hflag Hparse).
  destruct (instantiate (store s) tree) as [st0 newAST] eqn:Hinst.
  apply instantiate_inv in Hinst as [Hallocg Hallocc].
  simpl fst. simpl snd.
  set (s1 := set_store st0 (set_isSynchingFromCodeMirror true s)).
  destruct (diffAST (store s1) (currentStateRef s1) newAST)
    as [st1 cached] eqn:Hd1.
  destruct (diffAST st1 (reka_program s1) cached) as [st2 live] eqn:Hd2.
  destruct (reconcile_passes_graph newAST s1 _ _ _ _ Hd1 Hd2)
    as (Hstore & Hprog & _).
  destruct (emit_graph SuccessStatus (reconcile_passes newAST s1))
    as (Hes & Hep & _).
  simpl store. simpl reka_program. rewrite Hes, Hep, Hstore, Hprog.
  apply diffAST_inv in Hd1 as [Hd1g Hd1c].
  apply diffAST_inv in Hd2 as [Hd2g Hd2c].
  simpl in Hd1g, Hd1c, Hd2g, Hd2c.
  pose proof (alloc_all_spec _ _ _ _ Hallocg) as [Hvg _].
  pose proof (alloc_all_spec _ _ _ _ Hallocc) as [Hvc _].
  pose proof (fun r => alloc_all_obj _ _ _ _ r Hallocg) as Hog.
  pose proof (fun r => alloc_all_obj _ _ _ _ r Hallocc) as Hoc.
  destruct (diff_twice same_global_name merge_Global g_name
              same_global_name_key merge_Global_replace
              (gheap st0) (currentStateRef s) (reka_program s) newAST cached
              globals _ _ _ _ Hd1g eq_refl Hd2g) as [Hpg Hrg].
  { rewrite (keys_allocated g_name (gheap (store s))); done. }
  { rewrite (keys_allocated g_name (gheap (store s))); done. }
  { rewrite keys_as_fmap, Hvg. done. }
  destruct (diff_twice same_component_name merge_Component c_name
              same_component_name_key merge_Component_replace
              (cheap st0) (currentStateRef s) (reka_program s) newAST cached
              components _ _ _ _ Hd1c eq_refl Hd2c) as [Hpc Hrc].
  { rewrite (keys_allocated c_name (cheap (store s))); done. }
  { rewrite (keys_allocated c_name (cheap (store s))); done. }
  { rewrite keys_as_fmap, Hvc. done. }
  split; [simpl; by rewrite Hpg, Hvg|].
  split; [simpl; by rewrite Hpc, Hvc|].
  split.
  - intros r Hr Hout Hin. apply Hout.
    specialize (Hrg r Hr Hin). rewrite keys_as_fmap, Hvg in Hrg.
    unfold keyOf in Hrg. rewrite Hog in Hrg; [done|].
    rewrite Forall_forall in Hag. by apply Hag.
  - intros r Hr Hout Hin. apply Hout.
    specialize (Hrc r Hr Hin). rewrite keys_as_fmap, Hvc in Hrc.
    unfold keyOf in Hrc. rewrite Hoc in Hrc; [done|].
    rewrite Forall_forall in Hac. by apply Hac.
Qed.

(* --------------------------------------------------------------------- *)
(* The sample session                                                    *)
(* --------------------------------------------------------------------- *)

Lemma sample_mounted_reachable :
  reachable Sample.parse Sample.print Sample.mounted.
Proof.
  apply (reachable_step _ _ Sample.session); [apply reachable_initial|].
  apply step_mount.
Qed.

Lemma sample_typed_reachable :
  reachable Sample.parse Sample.print Sample.typed.
Proof.
  apply (reachable_step _ _ Sample.mounted); [apply sample_mounted_reachable|].
  apply (step_view_update Sample.parse Sample.print Sample.mounted
           "component App => <div/>" (mkViewUpdate true Sample.code_edited)).
  - reflexivity.
  - discriminate.
Qed.

(** The sample session to its end: the user edits App, a peer adds Card2,
    the timer fires.  The live graph holds the edited App and no Card2,
    and the handler has seen parsing and success. *)
Example collaboration_scenario :
  component_names (store Sample.peer_added) (reka_program Sample.peer_added)
  = ["App"; "Card2"] /\
  read_tree (store Sample.synced) (reka_program Sample.synced)
  = mkTree [] [Sample.App_edited] /\
  statuses Sample.synced = [ParsingStatus; SuccessStatus].
Proof. by vm_compute. Qed.

(** A global set in the settings panel while nobody types reaches the
    document of the editor. *)
Example settings_change_reaches_editor :
  codemirrorView
    (flush Sample.print (settings_onChange Some "n" "1" Sample.mounted))
  = Some "val n = 1;component App => <div/>".
Proof. by vm_compute. Qed.

(** C2 (as stated, refuted): it is not so that a component added to the
    graph from outside while a typed text waits for its sync is still in
    the live graph after that sync.  In the sample session the user has
    typed an edit of App, a peer adds Card2, the timer fires: the live
    graph then holds the edited App only. *)
Lemma external_component_removed :
  ~ (forall parseProgram stringify s c code tree,
        reachable parseProgram stringify s ->
        debounced s = Some code ->
        parseProgram code = Normal tree ->
        c_name c ∉ component_names (store s) (reka_program s) ->
        let s1 := flush stringify
                    (reka_change (external (push_component c)) s) in
        let s2 := flush stringify
                    (syncCodeToState parseProgram code
                       (set_debounced None s1)) in
        (forall t, t ∈ tree_components tree ->
                   t ∈ tree_components
                         (read_tree (store s2) (reka_program s2))) /\
        c_name c ∈ component_names (store s2) (reka_program s2)).
Proof.
  intros H.
  destruct (H Sample.parse Sample.print Sample.typed Sample.Card2
              Sample.code_edited (mkTree [] [Sample.App_edited]))
    as [_ Hin].
  - apply sample_typed_reachable.
  - reflexivity.
  - reflexivity.
  - decide_by_compute.
  - revert Hin. apply (bool_decide_unpack (_ ∉ _)). vm_compute. exact I.
Qed.

Lemma text_sync_overwrites_graph_witness :
  let s' := syncCodeToState Sample.parse Sample.code_edited Sample.peer_added in
  tree_globals (read_tree (store s') (reka_program s')) ≡ₚ [] /\
  tree_components (read_tree (store s') (reka_program s'))
    ≡ₚ [Sample.App_edited] /\
  (forall r, r ∈ globals (reka_program Sample.peer_added) ->
     g_name (obj (gheap (store Sample.peer_added)) r) ∉ (g_name <$> []) ->
     r ∉ globals (reka_program s')) /\
  (forall r, r ∈ components (reka_program Sample.peer_added) ->
     c_name (obj (cheap (store Sample.peer_added)) r)
       ∉ (c_name <$> [Sample.App_edited]) ->
     r ∉ components (reka_program s')).
Proof.
  apply (text_sync_overwrites_graph Sample.parse Sample.code_edited
           (mkTree [] [Sample.App_edited]) Sample.peer_added).
  - reflexivity.
  - reflexivity.
  - decide_by_compute.
  - decide_by_compute.
  - split; decide_by_compute.
  - split; decide_by_compute.
  - split; decide_by_compute.
  - split; decide_by_compute.
Defined.

Lemma parse_failure_reported_witness :
  let s' := syncCodeToState Sample.parse "component" Sample.typed in
  store s' = store Sample.typed /\
  reka_program s' = reka_program Sample.typed /\
  currentStateRef s' = currentStateRef Sample.typed /\
  statuses s' = [ParsingStatus; ErrorStatus "Unexpected token"] /\
  isSynchingFromCodeMirror s' = false /\
  isTypingRef s' = false /\
  currentCodeStringRef s' = currentCodeStringRef Sample.typed /\
  codemirrorView s' = codemirrorView Sample.typed /\
  microtasks s' = microtasks Sample.typed.
Proof.
  apply (parse_failure_reported Sample.parse "component" "Unexpected token"
           Sample.typed).
  - reflexivity.
  - reflexivity.
Defined.


Lemma no_echo_witness :
  let s1 := Sample.typed in
  let s2 := flush Sample.print
              (syncCodeToState Sample.parse Sample.code_edited
                 (set_debounced None s1)) in
  debounced s1 = Some Sample.code_edited /\
  microtasks s1 = 0 /\
  debounced s2 = None /\
  microtasks s2 = 0 /\
  isSynchingFromExternal s2 = false.
Proof.
  destruct (no_echo Sample.parse Sample.print) as (_ & _ & _ & _ & Hturn).
  apply (Hturn Sample.mounted (mkViewUpdate true Sample.code_edited)).
  - apply (reachable_quiescent Sample.parse Sample.print).
    apply sample_mounted_reachable.
  - reflexivity.
Defined.

(* --------------------------------------------------------------------- *)
(* Further facts about the differ: edge cases and frame                  *)
(* --------------------------------------------------------------------- *)

Section DiffEdges.
Context {T : Type} `{!Inhabited T}.
Variable isEqual : T -> T -> bool.
Variable merge : T -> T -> T.
Variable key : T -> string.
Hypothesis isEqual_key : forall a b, isEqual a b = true <-> key a = key b.
Hypothesis merge_replace : forall a b, merge a b = b.

Let merge_key := merge_replace_key merge key merge_replace.

(** The first loop writes only into entries of the current array. *)
Lemma merge_loop_writes_current h current incoming i p h1 p1 r :
  merge_loop isEqual merge h current incoming i p = (h1, p1) ->
  r ∉ current -> h1 !! r = h !! r.
Proof.
  revert h i p. induction incoming as [|n rest IH]; intros h i p Hrun Hr.
  - simpl in Hrun. by inversion Hrun.
  - simpl in Hrun.
    destruct (find_existing isEqual h current n) as [e|] eqn:Hf.
    + apply (find_existing_Some isEqual key isEqual_key) in Hf as [He _].
      rewrite (IH _ _ _ Hrun Hr). apply lookup_insert_ne. by intros ->.
    + by apply (IH _ _ _ Hrun).
Qed.

(** The first loop creates no object: it overwrites allocated ones. *)
Lemma merge_loop_dom h current incoming i p h1 p1 :
  merge_loop isEqual merge h current incoming i p = (h1, p1) ->
  Forall (fun r => is_Some (h !! r)) current ->
  dom h1 = dom h.
Proof.
  revert h i p. induction incoming as [|n rest IH]; intros h i p Hrun Hall.
  - simpl in Hrun. by inversion Hrun.
  - simpl in Hrun.
    destruct (find_existing isEqual h current n) as [e|] eqn:Hf.
    + apply (find_existing_Some isEqual key isEqual_key) in Hf as [He _].
      assert (Hdom : dom (<[e := merge (obj h e) (obj h n)]> h) = dom h).
      { apply dom_insert_lookup_L.
        rewrite Forall_forall in Hall. by apply Hall. }
      rewrite <- Hdom. apply (IH _ _ _ Hrun).
      rewrite Forall_forall in *. intros x Hx.
      apply elem_of_dom. rewrite Hdom. apply elem_of_dom. by apply Hall.
    + by apply (IH _ _ _ Hrun).
Qed.

Lemma diff_heap_is_merge_loop h program newProgram getTarget h1 res :
  _diffASTArrayTypes isEqual merge h program newProgram getTarget = (h1, res) ->
  exists p1,
    merge_loop isEqual merge h (getTarget program) (getTarget newProgram) 0 []
    = (h1, p1).
Proof.
  unfold _diffASTArrayTypes.
  destruct (merge_loop isEqual merge h (getTarget program)
              (getTarget newProgram) 0 []) as [h' p'].
  intros Heq. inversion Heq; subst. by eexists.
Qed.

Lemma unmatched_app_matched h current pre news i :
  (forall n, n ∈ pre -> keyOf key h n ∈ keys key h current) ->
  unmatched key h current (pre ++ news) i
  = unmatched key h current news (i + length pre).
Proof.
  revert i. induction pre as [|n pre IH]; intros i Hpre; simpl.
  - by rewrite Nat.add_0_r.
  - rewrite bool_decide_true by (apply Hpre; by left).
    rewrite IH by (intros m Hm; apply Hpre; by right).
    f_equal. lia.
Qed.

(** Entries recorded at the end of the incoming array are spliced past
    the end of the current one: [splice] clamps the index, so they are
    appended in their order. *)
Lemma insert_loop_tail h current news base k acc :
  (forall n, n ∈ news -> keyOf key h n ∉ keys key h current) ->
  length acc <= base + k ->
  insert_loop (unmatched key h current news base) k acc = acc ++ news.
Proof.
  revert base k acc. induction news as [|n news IH];
    intros base k acc Hnew Hlen; simpl.
  - by rewrite app_nil_r.
  - rewrite bool_decide_false by (apply Hnew; by left). simpl.
    unfold splice_insert. rewrite take_ge, drop_ge by lia.
    rewrite IH.
    + by rewrite <- app_assoc.
    + intros m Hm. apply Hnew. by right.
    + rewrite length_app. simpl. lia.
Qed.

Lemma diff_tail_appended h program newProgram getTarget h1 res pre news :
  _diffASTArrayTypes isEqual merge h program newProgram getTarget = (h1, res) ->
  getTarget newProgram = pre ++ news ->
  keys key h pre = keys key h (getTarget program) ->
  (forall n, n ∈ news -> keyOf key h n ∉ keys key h (getTarget program)) ->
  res = getTarget program ++ news.
Proof.
  intros Hd Hsplit Hpre Hnew.
  apply (diff_shape isEqual merge key isEqual_key merge_key) in Hd as [_ ->].
  rewrite Hsplit, unmatched_app_matched.
  2:{ intros n Hn. rewrite <- Hpre. by apply list_elem_of_fmap_2. }
  rewrite insert_loop_tail; [|done|].
  2:{ simpl. rewrite <- (length_fmap (keyOf key h) pre).
      fold (keys key h pre). rewrite Hpre. unfold keys.
      rewrite length_fmap. lia. }
  apply filter_all. intros r Hr. apply bool_decide_eq_true.
  unfold keys. rewrite fmap_app. fold (keys key h pre). rewrite Hpre.
  apply elem_of_app in Hr as [Hr|Hr]; apply elem_of_app.
  - left. by apply list_elem_of_fmap_2.
  - right. by apply list_elem_of_fmap_2.
Qed.

Lemma diff_empty_incoming_array h program newProgram getTarget :
  getTarget newProgram = [] ->
  _diffASTArrayTypes isEqual merge h program newProgram getTarget = (h, []).
Proof.
  intros Hempty.
  destruct (_diffASTArrayTypes isEqual merge h program newProgram getTarget)
    as [h1 res] eqn:Hd.
  pose proof Hd as Hheap. apply diff_heap_is_merge_loop in Hheap as [p1 Hm].
  rewrite Hempty in Hm. simpl in Hm. inversion Hm; subst h1 p1.
  apply (diff_shape isEqual merge key isEqual_key merge_key) in Hd as [_ ->].
  rewrite Hempty. simpl. f_equal.
  induction (getTarget program) as [|x l IH]; [done|].
  exact IH.
Qed.

Lemma diff_empty_current_array h program newProgram getTarget :
  getTarget program = [] ->
  _diffASTArrayTypes isEqual merge h program newProgram getTarget
  = (h, getTarget newProgram).
Proof.
  intros Hempty.
  destruct (_diffASTArrayTypes isEqual merge h program newProgram getTarget)
    as [h1 res] eqn:Hd.
  assert (h1 = h) as ->.
  { apply map_eq. intros r.
    destruct (diff_heap_is_merge_loop _ _ _ _ _ _ Hd) as [p1 Hm].
    apply (merge_loop_writes_current _ _ _ _ _ _ _ r Hm).
    rewrite Hempty. by intros Hin; inversion Hin. }
  f_equal.
  apply (diff_tail_appended h program newProgram getTarget h res
           [] (getTarget newProgram)) in Hd.
  - by rewrite Hd, Hempty.
  - done.
  - by rewrite Hempty.
  - intros n _. rewrite Hempty. by intros Hin; inversion Hin.
Qed.
Lemma lookup_obj (h : gmap loc T) r : is_Some (h !! r) -> h !! r = Some (obj h r).
Proof. intros [v Hv]. unfold obj. by rewrite lookup_total_alt, Hv. Qed.

(** A second run against the same incoming array finds every incoming
    entry matched by an entry that already holds its fields. *)
Lemma diff_idempotent h program newProgram program1 getTarget h1 res :
  _diffASTArrayTypes isEqual merge h program newProgram getTarget = (h1, res) ->
  getTarget program1 = res ->
  NoDup (keys key h (getTarget program)) ->
  NoDup (keys key h (getTarget newProgram)) ->
  Forall (fun r => is_Some (h !! r)) (getTarget program) ->
  Forall (fun r => is_Some (h !! r)) (getTarget newProgram) ->
  _diffASTArrayTypes isEqual merge h1 program1 newProgram getTarget = (h1, res).
Proof.
  intros Hd Hres Hcur Hinc Hacur Hainc.
  pose proof (diff_shape isEqual merge key isEqual_key merge_key
                _ _ _ _ _ _ Hd) as [Hk _].
  pose proof (fun r => diff_elem_of isEqual merge key isEqual_key merge_key
                _ _ _ _ _ _ r Hd) as Hin.
  pose proof (diff_keys_NoDup isEqual merge key isEqual_key merge_key
                _ _ _ _ _ _ Hd Hcur Hinc) as Hnd.
  destruct (diff_heap_is_merge_loop _ _ _ _ _ _ Hd) as [p1 Hm].
  pose proof (merge_loop_dom _ _ _ _ _ _ _ Hm Hacur) as Hdom.
  assert (Halloc : forall r, is_Some (h !! r) -> is_Some (h1 !! r)).
  { intros r Hr. apply elem_of_dom. rewrite Hdom. by apply elem_of_dom. }
  destruct (diff_values isEqual merge key isEqual_key merge_replace
              _ _ _ _ _ _ Hd Hcur) as [_ Hrest];
    [by apply alias_safe_unique|].
  rewrite Forall_forall in Hacur, Hainc.
  destruct (_diffASTArrayTypes isEqual merge h1 program1 newProgram getTarget)
    as [h2 res2] eqn:Hd2.
  assert (Hcopy : forall n, n ∈ getTarget newProgram ->
            exists c, c ∈ getTarget program1 /\ is_Some (h1 !! c) /\
                      h1 !! n = h1 !! c).
  { intros n Hn. rewrite Hres.
    destruct (decide (keyOf key h n ∈ keys key h (getTarget program)))
      as [Hmatch|Hnew].
    - apply list_elem_of_fmap in Hmatch as [e [Hke He]].
      exists e. split; [|split].
      + apply Hin. split; [by left|]. rewrite <- Hke.
        by apply list_elem_of_fmap_2.
      + by apply Halloc, Hacur.
      + rewrite (lookup_obj h1 n) by (by apply Halloc, Hainc).
        rewrite (lookup_obj h1 e) by (by apply Halloc, Hacur).
        f_equal.
        rewrite (diff_values_unique isEqual merge key isEqual_key
                   merge_replace _ _ _ _ _ _ e n Hd); try done.
        destruct (decide (n ∈ getTarget program)) as [Hnc|Hnc].
        * assert (n = e) as ->
            by (by apply (keys_inj key h (getTarget program) n e)).
          by apply (diff_values_unique isEqual merge key isEqual_key
                      merge_replace _ _ _ _ _ _ e e Hd).
        * apply Hrest. by left.
    - exists n. split; [|split; [|done]].
      + apply Hin. split; [by right|]. by apply list_elem_of_fmap_2.
      + by apply Halloc, Hainc. }
  assert (h2 = h1) as ->.
  { change h2 with (h2, res2).1. rewrite <- Hd2.
    apply (diff_noop_heap isEqual merge key isEqual_key merge_replace).
    - by rewrite Hres.
    - intros n Hn _. by apply Hcopy. }
  f_equal.
  rewrite (diff_no_new_key isEqual merge key isEqual_key merge_key
             _ _ _ _ _ _ Hd2).
  - rewrite Hres. apply filter_all. intros r Hr. apply bool_decide_eq_true.
    rewrite (keys_ext key h h1) by done. rewrite Hk.
    by apply Hin in Hr as [_ ?].
  - intros k Hkin. rewrite Hres.
    apply (diff_keys_elem_of isEqual merge key isEqual_key merge_key
             _ _ _ _ _ _ k Hd).
    by rewrite <- (keys_ext key h h1).
Qed.
End DiffEdges.

(** X1: an incoming tree without globals and without components empties
    the current tree; nothing is written to the store. *)
Theorem reconcile_empty_incoming st current incoming :
  globals incoming = [] -> components incoming = [] ->
  diffAST st current incoming = (st, mkProgram [] []).
Proof.
  intros Hg Hc. unfold diffAST.
  rewrite (diff_empty_incoming_array same_global_name merge_Global g_name
             same_global_name_key merge_Global_replace _ _ _ _ Hg).
  rewrite (diff_empty_incoming_array same_component_name merge_Component c_name
             same_component_name_key merge_Component_replace _ _ _ _ Hc).
  by destruct st.
Qed.

Lemma reconcile_empty_incoming_witness :
  diffAST Sample.st Sample.current (mkProgram [] [])
  = (Sample.st, mkProgram [] []).
Proof. apply reconcile_empty_incoming; reflexivity. Defined.

(** X2: an empty current tree takes over the incoming arrays as they
    are, the same objects in the incoming order, whatever their names;
    nothing is written to the store. *)
Theorem reconcile_empty_current st current incoming :
  globals current = [] -> components current = [] ->
  diffAST st current incoming = (st, incoming).
Proof.
  intros Hg Hc. unfold diffAST.
  rewrite (diff_empty_current_array same_global_name merge_Global g_name
             same_global_name_key merge_Global_replace _ _ _ _ Hg).
  rewrite (diff_empty_current_array same_component_name merge_Component c_name
             same_component_name_key merge_Component_replace _ _ _ _ Hc).
  by destruct st, incoming.
Qed.

Lemma reconcile_empty_current_witness :
  diffAST Sample.st (mkProgram [] []) Sample.twice = (Sample.st, Sample.twice).
Proof. apply reconcile_empty_current; reflexivity. Defined.

(** X3: whatever the names, an object is an entry after [diffAST] exactly
    when its name is an incoming name and it was an entry of the current
    array or is an incoming entry whose name no current entry had: the
    removal loop takes out the entries whose name is not incoming and
    nothing else. *)
Theorem reconcile_membership st current incoming :
  let r := diffAST st current incoming in
  (forall x,
      x ∈ globals r.2 <->
      (x ∈ globals current \/
       (x ∈ globals incoming /\
        g_name (obj (gheap st) x) ∉ global_names st current)) /\
      g_name (obj (gheap st) x) ∈ global_names st incoming) /\
  (forall x,
      x ∈ components r.2 <->
      (x ∈ components current \/
       (x ∈ components incoming /\
        c_name (obj (cheap st) x) ∉ component_names st current)) /\
      c_name (obj (cheap st) x) ∈ component_names st incoming).
Proof.
  destruct (diffAST st current incoming) as [st' current'] eqn:Hd.
  apply diffAST_inv in Hd as [Hdg Hdc]. simpl. split; intros x.
  - apply (diff_elem_of same_global_name merge_Global g_name
             same_global_name_key
             (merge_replace_key merge_Global g_name merge_Global_replace)
             _ _ _ _ _ _ x Hdg).
  - apply (diff_elem_of same_component_name merge_Component c_name
             same_component_name_key
             (merge_replace_key merge_Component c_name merge_Component_replace)
             _ _ _ _ _ _ x Hdc).
Qed.

(** X4: [diffAST] renames nothing: every object has after the call the
    name it had before, so the names of any array read the same. *)
Theorem reconcile_keeps_names st current incoming :
  let r := diffAST st current incoming in
  (forall x, g_name (obj (gheap r.1) x) = g_name (obj (gheap st) x)) /\
  (forall x, c_name (obj (cheap r.1) x) = c_name (obj (cheap st) x)) /\
  (forall p, global_names r.1 p = global_names st p) /\
  (forall p, component_names r.1 p = component_names st p).
Proof.
  destruct (diffAST st current incoming) as [st' current'] eqn:Hd.
  apply diffAST_inv in Hd as [Hdg Hdc]. simpl.
  apply (diff_shape same_global_name merge_Global g_name same_global_name_key
           (merge_replace_key merge_Global g_name merge_Global_replace))
    in Hdg as [Hg _].
  apply (diff_shape same_component_name merge_Component c_name
           same_component_name_key
           (merge_replace_key merge_Component c_name merge_Component_replace))
    in Hdc as [Hc _].
  split; [exact Hg|]. split; [exact Hc|]. split; intros p.
  - apply (keys_ext g_name). exact Hg.
  - apply (keys_ext c_name). exact Hc.
Qed.

(** X6: [diffAST] creates no object: when the entries of the current tree
    are allocated, the heaps have after the call the locations they had
    before. *)
Theorem reconcile_allocates_nothing st current incoming :
  allocated st current ->
  let r := diffAST st current incoming in
  dom (gheap r.1) = dom (gheap st) /\ dom (cheap r.1) = dom (cheap st).
Proof.
  intros [Hag Hac].
  destruct (diffAST st current incoming) as [st' current'] eqn:Hd.
  apply diffAST_inv in Hd as [Hdg Hdc]. simpl.
  destruct (diff_heap_is_merge_loop _ _ _ _ _ _ _ _ Hdg) as [pg Hmg].
  destruct (diff_heap_is_merge_loop _ _ _ _ _ _ _ _ Hdc) as [pc Hmc].
  split.
  - apply (merge_loop_dom same_global_name merge_Global g_name
             same_global_name_key _ _ _ _ _ _ _ Hmg Hag).
  - apply (merge_loop_dom same_component_name merge_Component c_name
             same_component_name_key _ _ _ _ _ _ _ Hmc Hac).
Qed.

Lemma reconcile_allocates_nothing_witness :
  dom (cheap (diffAST Sample.st Sample.current Sample.one_more).1)
  = dom Sample.heap_c.
Proof.
  apply (reconcile_allocates_nothing Sample.st Sample.current Sample.one_more).
  split; decide_by_compute.
Defined.

(** X7: reconciling twice against the same incoming tree is reconciling
    once: for allocated trees with unique names, a second [diffAST] on the
    result changes neither the arrays nor the store. *)
Theorem reconcile_idempotent st current incoming st1 current1 :
  unique_names st current -> unique_names st incoming ->
  allocated st current -> allocated st incoming ->
  diffAST st current incoming = (st1, current1) ->
  diffAST st1 current1 incoming = (st1, current1).
Proof.
  intros [Hg Hc] [Hg' Hc'] [Hag Hac] [Hag' Hac'] [Hdg Hdc]%diffAST_inv.
  unfold diffAST.
  rewrite (diff_idempotent same_global_name merge_Global g_name
             same_global_name_key merge_Global_replace
             _ _ _ current1 _ _ _ Hdg eq_refl Hg Hg' Hag Hag').
  rewrite (diff_idempotent same_component_name merge_Component c_name
             same_component_name_key merge_Component_replace
             _ _ _ current1 _ _ _ Hdc eq_refl Hc Hc' Hac Hac').
  by destruct st1, current1.
Qed.

Lemma reconcile_idempotent_witness :
  diffAST (diffAST Sample.st Sample.current Sample.edited).1
    (diffAST Sample.st Sample.current Sample.edited).2 Sample.edited
  = diffAST Sample.st Sample.current Sample.edited.
Proof.
  destruct (diffAST Sample.st Sample.current Sample.edited)
    as [st1 current1] eqn:Hd.
  apply (reconcile_idempotent Sample.st Sample.current Sample.edited);
    [split; decide_by_compute .. | exact Hd].
Defined.

(** X8: when the incoming array starts with entries that carry the names
    of the current entries in the current order and goes on with entries
    of new names, the new entries are appended behind the current ones in
    their incoming order: past the end [splice] clamps its index. *)
Theorem reconcile_appends_tail st current incoming :
  let r := diffAST st current incoming in
  (forall pre news,
      globals incoming = pre ++ news ->
      global_names st (mkProgram pre []) = global_names st current ->
      (forall n, n ∈ news ->
                 g_name (obj (gheap st) n) ∉ global_names st current) ->
      globals r.2 = globals current ++ news) /\
  (forall pre news,
      components incoming = pre ++ news ->
      component_names st (mkProgram [] pre) = component_names st current ->
      (forall n, n ∈ news ->
                 c_name (obj (cheap st) n) ∉ component_names st current) ->
      components r.2 = components current ++ news).
Proof.
  destruct (diffAST st current incoming) as [st' current'] eqn:Hd.
  apply diffAST_inv in Hd as [Hdg Hdc]. simpl. split; intros pre news.
  - apply (diff_tail_appended same_global_name merge_Global g_name
             same_global_name_key merge_Global_replace _ _ _ _ _ _ _ _ Hdg).
  - apply (diff_tail_appended same_component_name merge_Component c_name
             same_component_name_key merge_Component_replace
             _ _ _ _ _ _ _ _ Hdc).
Qed.

Lemma reconcile_appends_tail_witness :
  globals (diffAST Sample.st Sample.current Sample.one_more).2
  = [1; 12]%positive.
Proof.
  destruct (reconcile_appends_tail Sample.st Sample.current Sample.one_more)
    as [Hg _].
  apply (Hg [11%positive] [12%positive]).
  - reflexivity.
  - reflexivity.
  - intros n ->%list_elem_of_singleton. decide_by_compute.
Defined.

(* --------------------------------------------------------------------- *)
(* Further facts about the callbacks of the component                    *)
(* --------------------------------------------------------------------- *)

Lemma instantiate_keeps_objects st tree st1 newAST p :
  instantiate st tree = (st1, newAST) ->
  allocated st p ->
  read_tree st1 p = read_tree st p.
Proof.
  intros [Hg Hc]%instantiate_inv [Hag Hac].
  rewrite Forall_forall in Hag, Hac.
  unfold read_tree. f_equal; apply list_fmap_ext; intros i x Hx.
  - apply (alloc_all_obj _ _ _ _ x Hg), Hag. by eapply list_elem_of_lookup_2.
  - apply (alloc_all_obj _ _ _ _ x Hc), Hac. by eapply list_elem_of_lookup_2.
Qed.

Section EditorExtras.
Variable parseProgram : string -> Completion ProgramTree.
Variable stringify : ProgramTree -> string.

(** What the text-to-graph pass leaves behind when it runs. *)
Lemma syncCodeToState_outcome code s :
  isSynchingFromExternal s = false ->
  let s' := syncCodeToState parseProgram code s in
  isTypingRef s' = false /\
  isSynchingFromCodeMirror s' = false /\
  onStatusChange s' = onStatusChange s /\
  exists status,
    status <> ParsingStatus /\
    statuses s'
    = (if onStatusChange s then statuses s ++ [status] else statuses s).
Proof.
  intros Hflag. cbv zeta.
  destruct (parseProgram code) as [tree|message] eqn:Hparse.
  - rewrite (syncCodeToState_parsed parseProgram code tree s Hflag Hparse).
    set (s1 := set_store _ _).
    destruct (reconcile_passes_frame (instantiate (store s) tree).2 s1)
      as (_ & _ & _ & _ & _ & _ & _ & H8 & H9).
    unfold emit. rewrite H8. simpl.
    destruct (onStatusChange s) eqn:Hh; simpl; rewrite ?H8, ?H9; simpl;
      repeat split; try done; exists SuccessStatus; by rewrite ?Hh.
  - rewrite (syncCodeToState_failed parseProgram code message s Hflag Hparse).
    unfold emit. simpl.
    destruct (onStatusChange s) eqn:Hh; simpl;
      repeat split; try done; exists (ErrorStatus message); by rewrite ?Hh.
Qed.

(** What the turn of a change notification leaves as it was. *)
Lemma notification_turn_frame s :
  quiescent s ->
  let s' := flush stringify (onExternalChange s) in
  isSynchingFromCodeMirror s' = isSynchingFromCodeMirror s /\
  isTypingRef s' = isTypingRef s /\
  debounced s' = debounced s /\
  onStatusChange s' = onStatusChange s /\
  statuses s' = statuses s /\
  reka_program s' = reka_program s.
Proof.
  intros (Hflag & Hq & Hdoc). cbv zeta. unfold onExternalChange.
  destruct (isSynchingFromCodeMirror s || isTypingRef s).
  { by rewrite flush_idle. }
  destruct (codemirrorView s) as [doc|] eqn:Hview.
  2:{ by rewrite flush_idle. }
  rewrite Hflag, flush_one by (simpl; by rewrite Hq).
  set (s1 := set_microtasks 0 _).
  destruct (decide (stringify (read_tree (store s1) (reka_program s1))
                    = currentCodeStringRef s1)) as [Heq|Hne].
  - by rewrite syncStateToCode_same.
  - by rewrite (syncStateToCode_differs stringify s1 doc).
Qed.

(** What a change of the document leaves behind when no graph-to-text
    pass is in flight. *)
Lemma updateListener_outcome view s :
  isSynchingFromExternal s = false ->
  docChanged view = true ->
  let s' := updateListener view s in
  isTypingRef s' = true /\
  debounced s' = Some (state_doc view) /\
  currentCodeStringRef s' = state_doc view /\
  statuses s'
  = (if onStatusChange s then statuses s ++ [ParsingStatus]
     else statuses s) /\
  isSynchingFromCodeMirror s' = isSynchingFromCodeMirror s /\
  isSynchingFromExternal s' = false /\
  onStatusChange s' = onStatusChange s /\
  microtasks s' = microtasks s /\
  codemirrorView s' = codemirrorView s /\
  store s' = store s /\
  reka_program s' = reka_program s /\
  currentStateRef s' = currentStateRef s.
Proof.
  intros Hflag Hchanged. unfold updateListener, emit.
  rewrite Hchanged, Hflag. simpl.
  destruct (onStatusChange s) eqn:Hh; simpl; repeat split; auto.
Qed.

Lemma last_snoc_status (l : list ParserStatus) x : last (l ++ [x]) = Some x.
Proof. apply last_snoc. Qed.

(** The flags and the status calls between two turns. *)
Lemma reachable_sync_idle s :
  reachable parseProgram stringify s -> sync_idle s.
Proof.
  induction 1 as [st program handler | s s' Hreach IH Hstep].
  - unfold initial. destruct (fromJSON st program) as [st1 copy].
    split; [done|]. split; simpl.
    + split; [done | by intros []].
    + intros _. split; [by intros [] | done].
  - pose proof (reachable_quiescent _ _ _ Hreach) as (Hflag & Hq & Hdoc).
    destruct IH as (Hcm & Htyping & Hstatus).
    destruct Hstep as [s | s doc view Hview Hsame | s code Hcode | s g].
    + done.
    + destruct (docChanged view) eqn:Hchanged.
      * destruct (updateListener_outcome view
                    (set_codemirrorView (Some (state_doc view)) s)
                    Hflag Hchanged)
          as (U1 & U2 & _ & U4 & U5 & _ & U7 & U8 & _).
        rewrite flush_idle by (by rewrite U8).
        unfold sync_idle. rewrite U1, U2, U4, U5, U7. simpl.
        split; [done|]. split; [split; [by eexists | done]|].
        intros Hon. rewrite Hon, last_snoc_status.
        split; [done | by eexists].
      * unfold updateListener. simpl. rewrite Hchanged. simpl.
        by rewrite flush_idle.
    + destruct (syncCodeToState_frame parseProgram code (set_debounced None s))
        as (_ & _ & _ & H4 & H5).
      destruct (syncCodeToState_outcome code (set_debounced None s) Hflag)
        as (Ht & Hc & Hh & status & Hnot & Hlog).
      rewrite flush_idle by (by rewrite H5).
      split; [done|]. rewrite Ht, H4, Hh. simpl.
      split; [split; [done | by intros []]|].
      intros Hon. simpl in Hon. rewrite Hlog. simpl.
      rewrite Hon, last_snoc_status.
      split; [by intros [] | intros Heq; inversion Heq; by subst].
    + unfold reka_change.
      destruct (external_frame g s)
        as (_ & H2 & H3 & H4 & H5 & H6 & H7 & H8 & H9 & H10).
      assert (Hq' : quiescent (external g s)).
      { split; [by rewrite H4|]. split; [by rewrite H8|].
        intros d Hd. rewrite H2. rewrite H6 in Hd. by apply Hdoc. }
      destruct (notification_turn_frame (external g s) Hq')
        as (F1 & F2 & F3 & F4 & F5 & _).
      unfold sync_idle. by rewrite F1, F2, F3, F4, F5, H3, H5, H7, H9, H10.
Qed.
End EditorExtras.

Lemma find_ext_in {A} (f g : A -> bool) (l : list A) :
  (forall x, x ∈ l -> f x = g x) -> List.find f l = List.find g l.
Proof.
  induction l as [|a l IH]; intros Hfg; simpl; [done|].
  rewrite <- (Hfg a) by (by left).
  destruct (f a); [done|]. apply IH. intros x Hx. apply Hfg. by right.
Qed.

Lemma find_snoc_none {A} (f : A -> bool) (l : list A) (a : A) :
  List.find f l = None -> f a = true -> List.find f (l ++ [a]) = Some a.
Proof.
  induction l as [|b l IH]; intros Hnone Ha; simpl in *; [by rewrite Ha|].
  destruct (f b); [done|]. by apply IH.
Qed.

Lemma onExternalChange_graph s :
  store (onExternalChange s) = store s /\
  reka_program (onExternalChange s) = reka_program s /\
  currentStateRef (onExternalChange s) = currentStateRef s.
Proof.
  unfold onExternalChange.
  destruct (isSynchingFromCodeMirror s || isTypingRef s); [done|].
  destruct (codemirrorView s); [|done].
  by destruct (isSynchingFromExternal s).
Qed.

(** The graph after [onChange] of the settings panel, for an id and a
    value that pass its guard. *)
Lemma settings_onChange_graph parseExpression id value parsedValue s :
  parseExpression value = Some parsedValue ->
  id <> "" ->
  (store (settings_onChange parseExpression id value s),
   reka_program (settings_onChange parseExpression id value s))
  = set_global
      (List.find (fun r => String.eqb (g_name (obj (gheap (store s)) r)) id)
         (globals (reka_program s)))
      id parsedValue (store s, reka_program s).
Proof.
  intros Hparse Hid. unfold settings_onChange. rewrite Hparse.
  apply String.eqb_neq in Hid. rewrite Hid.
  unfold reka_change.
  destruct (onExternalChange_graph
              (external (set_global
                 (List.find
                    (fun r => String.eqb (g_name (obj (gheap (store s)) r)) id)
                    (globals (reka_program s))) id parsedValue) s))
    as (-> & -> & _).
  unfold external.
  by destruct (set_global _ id parsedValue (store s, reka_program s)).
Qed.

(** X9: however many change notifications arrive before the queued
    callback runs, [onExternalChange] has the effect of one: one callback
    is queued, not one per notification. *)
Theorem onExternalChange_once n s :
  Nat.iter (S n) onExternalChange s = onExternalChange s.
Proof.
  induction n as [|n IH]; [done|].
  change (onExternalChange (Nat.iter (S n) onExternalChange s)
          = onExternalChange s).
  rewrite IH. unfold onExternalChange.
  destruct (isSynchingFromCodeMirror s || isTypingRef s) eqn:Hguard.
  { by rewrite Hguard. }
  destruct (codemirrorView s) as [doc|] eqn:Hview.
  2:{ by rewrite Hguard, Hview. }
  destruct (isSynchingFromExternal s) eqn:Hflag.
  { by rewrite Hguard, Hview, Hflag. }
  simpl. by rewrite Hguard, Hview.
Qed.

(** X15: [onChange] of the settings panel never gives two globals the
    same name: with unique names and allocated globals before, the names
    are unique after, and the components are as before. *)
Theorem settings_keeps_unique_globals parseExpression id value s :
  NoDup (global_names (store s) (reka_program s)) ->
  Forall (fun r => is_Some (gheap (store s) !! r)) (globals (reka_program s)) ->
  let s' := settings_onChange parseExpression id value s in
  NoDup (global_names (store s') (reka_program s')) /\
  cheap (store s') = cheap (store s) /\
  components (reka_program s') = components (reka_program s).
Proof.
  intros Hnd Hall. cbv zeta.
  destruct (parseExpression value) as [parsedValue|] eqn:Hparse.
  2:{ unfold settings_onChange. by rewrite Hparse. }
  destruct (decide (id = "")) as [->|Hid].
  { unfold settings_onChange. by rewrite Hparse. }
  pose proof (settings_onChange_graph parseExpression id value parsedValue s
                Hparse Hid) as Hgraph.
  set (s' := settings_onChange parseExpression id value s) in *.
  unfold set_global in Hgraph.
  destruct (List.find _ (globals (reka_program s))) as [r|] eqn:Hfind.
  - inversion Hgraph as [[Hstore Hprog]]. unfold global_names.
    rewrite Hstore, Hprog. simpl. split; [|done].
    apply find_some in Hfind as [Hr Hname].
    replace ((fun x => g_name (obj (<[r := mkGlobal (g_name (obj (gheap (store s)) r)) parsedValue]> (gheap (store s))) x))
             <$> globals (reka_program s))
      with (global_names (store s) (reka_program s)); [done|].
    unfold global_names. apply list_fmap_ext. intros i x Hx. unfold obj.
    destruct (decide (r = x)) as [->|Hne].
    + by rewrite lookup_total_insert_eq.
    + by rewrite lookup_total_insert_ne.
  - unfold alloc in Hgraph. inversion Hgraph as [[Hstore Hprog]].
    unfold global_names. rewrite Hstore, Hprog. simpl. split; [|done].
    set (r := fresh (dom (gheap (store s)))).
    assert (Hfresh : r ∉ globals (reka_program s)).
    { intros Hin. rewrite Forall_forall in Hall. apply Hall in Hin.
      apply elem_of_dom in Hin. by apply is_fresh in Hin. }
    rewrite fmap_app. simpl. unfold obj at 2.
    rewrite lookup_total_insert_eq. simpl.
    replace ((fun x => g_name (obj (<[r := mkGlobal id parsedValue]> (gheap (store s))) x))
             <$> globals (reka_program s))
      with (global_names (store s) (reka_program s)).
    + apply NoDup_app. split; [done|]. split; [|apply NoDup_singleton].
      intros k Hk ->%list_elem_of_singleton.
      apply list_elem_of_fmap in Hk as [x [Hname Hx]].
      apply list_elem_of_In in Hx.
      pose proof (find_none _ _ Hfind x Hx) as Hno. simpl in Hno.
      apply String.eqb_neq in Hno. by rewrite <- Hname in Hno.
    + unfold global_names. apply list_fmap_ext. intros i x Hx. unfold obj.
      rewrite lookup_total_insert_ne; [done|].
      intros ->. apply Hfresh. by eapply list_elem_of_lookup_2.
Qed.

(** X16: after [onChange] of the settings panel with a non-empty id and
    a value that parses, the first global of that name holds the parsed
    value as its [init]; the globals of other names hold what they held. *)
Theorem settings_sets_global parseExpression id value parsedValue s :
  parseExpression value = Some parsedValue ->
  id <> "" ->
  Forall (fun r => is_Some (gheap (store s) !! r)) (globals (reka_program s)) ->
  let s' := settings_onChange parseExpression id value s in
  (exists r,
      List.find (fun x => String.eqb (g_name (obj (gheap (store s')) x)) id)
        (globals (reka_program s')) = Some r /\
      obj (gheap (store s')) r = mkGlobal id parsedValue) /\
  (forall x, x ∈ globals (reka_program s) ->
     g_name (obj (gheap (store s)) x) <> id ->
     x ∈ globals (reka_program s') /\
     obj (gheap (store s')) x = obj (gheap (store s)) x).
Proof.
  intros Hparse Hid Hall. cbv zeta.
  pose proof (settings_onChange_graph parseExpression id value parsedValue s
                Hparse Hid) as Hgraph.
  set (s' := settings_onChange parseExpression id value s) in *.
  unfold set_global in Hgraph.
  destruct (List.find _ (globals (reka_program s))) as [r|] eqn:Hfind.
  - inversion Hgraph as [[Hstore Hprog]]. rewrite Hstore, Hprog. simpl.
    pose proof Hfind as Hsome. apply find_some in Hsome as [Hr Hname].
    apply String.eqb_eq in Hname.
    assert (Hnames : forall x,
      g_name (obj (<[r := mkGlobal (g_name (obj (gheap (store s)) r))
                           parsedValue]> (gheap (store s))) x)
      = g_name (obj (gheap (store s)) x)).
    { intros x. unfold obj. destruct (decide (r = x)) as [->|Hne].
      - by rewrite lookup_total_insert_eq.
      - by rewrite lookup_total_insert_ne. }
    split.
    + exists r. split.
      * rewrite <- Hfind. apply find_ext_in. intros x _. by rewrite Hnames.
      * unfold obj at 1. rewrite lookup_total_insert_eq. by rewrite Hname.
    + intros x Hx Hne. split; [done|]. unfold obj.
      rewrite lookup_total_insert_ne; [done|]. intros ->. by apply Hne.
  - unfold alloc in Hgraph. inversion Hgraph as [[Hstore Hprog]].
    rewrite Hstore, Hprog. simpl.
    set (r := fresh (dom (gheap (store s)))).
    assert (Hfresh : r ∉ globals (reka_program s)).
    { intros Hin. rewrite Forall_forall in Hall. apply Hall in Hin.
      apply elem_of_dom in Hin. by apply is_fresh in Hin. }
    assert (Hold : forall x, x ∈ globals (reka_program s) ->
      obj (<[r := mkGlobal id parsedValue]> (gheap (store s))) x
      = obj (gheap (store s)) x).
    { intros x Hx. unfold obj. rewrite lookup_total_insert_ne; [done|].
      by intros ->. }
    split.
    + exists r. split.
      * apply find_snoc_none.
        -- rewrite <- Hfind. apply find_ext_in. intros x Hx. by rewrite Hold.
        -- unfold obj. rewrite lookup_total_insert_eq. simpl.
           apply String.eqb_refl.
      * unfold obj. by rewrite lookup_total_insert_eq.
    + intros x Hx Hne. split; [|by apply Hold].
      apply elem_of_app. by left.
Qed.

Section TwoPassesSnapshot.
Context {T : Type} `{!Inhabited T}.
Variable isEqual : T -> T -> bool.
Variable merge : T -> T -> T.
Variable key : T -> string.
Hypothesis isEqual_key : forall a b, isEqual a b = true <-> key a = key b.
Hypothesis merge_replace : forall a b, merge a b = b.

Let merge_key := merge_replace_key merge key merge_replace.

(** The second pass leaves the cached array with the values the first
    pass gave it: an entry it shares with the live array is merged with
    itself. *)
Lemma diff_twice_snapshot h cached live parsed cached' getTarget h1 c1 h2 l2 :
  _diffASTArrayTypes isEqual merge h cached parsed getTarget = (h1, c1) ->
  getTarget cached' = c1 ->
  _diffASTArrayTypes isEqual merge h1 live cached' getTarget = (h2, l2) ->
  NoDup (keys key h (getTarget cached)) ->
  NoDup (keys key h (getTarget live)) ->
  NoDup (keys key h (getTarget parsed)) ->
  obj h2 <$> c1 ≡ₚ obj h <$> getTarget parsed.
Proof.
  intros Hd1 Hc1 Hd2 Hcached Hlive Hparsed.
  pose proof (diff_shape isEqual merge key isEqual_key merge_key
                _ _ _ _ _ _ Hd1) as [Hk1 _].
  pose proof (diff_keys_NoDup isEqual merge key isEqual_key merge_key
                _ _ _ _ _ _ Hd1 Hcached Hparsed) as Hnd1.
  assert (Hlive1 : NoDup (keys key h1 (getTarget live)))
    by (by rewrite (keys_ext key h h1)).
  rewrite <- Hc1 in Hnd1.
  destruct (diff_values isEqual merge key isEqual_key merge_replace
              _ _ _ _ _ _ Hd2 Hlive1) as [_ Hrest];
    [by apply alias_safe_unique|].
  rewrite <- (diff_values_perm isEqual merge key isEqual_key merge_replace
                _ _ _ _ _ _ Hd1 Hcached Hparsed).
  replace (obj h2 <$> c1) with (obj h1 <$> c1); [done|].
  apply list_fmap_ext. intros i r Hr.
  apply list_elem_of_lookup_2 in Hr. rewrite <- Hc1 in Hr.
  destruct (decide (r ∈ getTarget live)) as [Hin|Hout].
  - symmetry.
    by apply (diff_values_unique isEqual merge key isEqual_key merge_replace
                _ _ _ _ _ _ r r Hd2).
  - symmetry. apply Hrest. by left.
Qed.
End TwoPassesSnapshot.

Section EditorExtraClaims.
Variable parseProgram : string -> Completion ProgramTree.
Variable stringify : ProgramTree -> string.

(** X10: between two turns of the event loop no text-to-graph pass is
    in flight and the typing flag is set exactly while a call of the
    debounced sync is pending.  While one is pending, the notification of
    a change of the graph from outside is dropped: the state after the
    turn is the state the change itself left, so the document and the
    cached code string are as before, the cached snapshot is not
    replaced, and no graph-to-text pass is queued or in flight. *)
Theorem typing_flag_tracks_pending_sync s :
  reachable parseProgram stringify s ->
  isSynchingFromCodeMirror s = false /\
  (isTypingRef s = true <-> is_Some (debounced s)) /\
  (is_Some (debounced s) ->
   forall g,
     let s' := flush stringify (reka_change (external g) s) in
     s' = external g s /\
     codemirrorView s' = codemirrorView s /\
     currentCodeStringRef s' = currentCodeStringRef s /\
     currentStateRef s' = currentStateRef s /\
     debounced s' = debounced s /\
     microtasks s' = 0 /\
     isSynchingFromExternal s' = false).
Proof.
  intros Hreach.
  pose proof (reachable_quiescent _ _ _ Hreach) as (Hflag & Hq & _).
  destruct (reachable_sync_idle parseProgram stringify s Hreach)
    as (Hcm & Htyping & _).
  split; [done|]. split; [done|].
  intros Hpending g. apply Htyping in Hpending. cbv zeta.
  destruct (external_frame g s)
    as (H1 & H2 & _ & H4 & H5 & H6 & H7 & H8 & _).
  unfold reka_change.
  rewrite onExternalChange_guard by (right; by rewrite H5).
  rewrite flush_idle by (by rewrite H8).
  by rewrite H1, H2, H4, H6, H7, H8.
Qed.


(** X12: when the graph is changed from outside while no typed text
    waits for its sync, then after the turn the document of the editor
    and the cached code string are the printed live graph; the pass
    leaves the live graph as the change made it. *)
Theorem external_change_reaches_editor s0 g doc :
  reachable parseProgram stringify s0 ->
  isTypingRef s0 = false ->
  codemirrorView s0 = Some doc ->
  allocated (store (external g s0)) (reka_program (external g s0)) ->
  let s := flush stringify (reka_change (external g) s0) in
  codemirrorView s
  = Some (stringify (read_tree (store s) (reka_program s))) /\
  currentCodeStringRef s
  = stringify (read_tree (store s) (reka_program s)) /\
  read_tree (store s) (reka_program s)
  = read_tree (store (external g s0)) (reka_program (external g s0)) /\
  isSynchingFromExternal s = false.
Proof.
  intros Hreach Htyping Hview Halloc.
  pose proof (reachable_quiescent _ _ _ Hreach) as (Hflag & Hq & Hdoc).
  destruct (reachable_sync_idle parseProgram stringify s0 Hreach)
    as (Hcm & _ & _).
  destruct (external_frame g s0)
    as (_ & H2 & H3 & H4 & H5 & H6 & _ & H8 & _).
  cbv zeta. unfold reka_change, onExternalChange.
  set (s1 := external g s0) in *.
  rewrite H3, H5, Hcm, Htyping, H6, Hview, H4, Hflag. simpl.
  rewrite flush_one by (simpl; by rewrite H8, Hq).
  set (s2 := set_microtasks 0 _).
  assert (Hcode : currentCodeStringRef s2 = doc)
    by (simpl; rewrite H2; by apply Hdoc).
  destruct (decide (stringify (read_tree (store s2) (reka_program s2))
                    = currentCodeStringRef s2)) as [Heq|Hne].
  - rewrite syncStateToCode_same by done. simpl.
    simpl in Heq. rewrite H6, Hview, H2, Heq, H2.
    by rewrite (Hdoc doc Hview).
  - rewrite (syncStateToCode_differs stringify s2 doc);
      [| done | done | simpl; by rewrite H6].
    simpl.
    destruct (fromJSON (store s1) (reka_program s1)) as [st copy] eqn:Hcopy.
    simpl.
    rewrite (instantiate_keeps_objects _ _ _ _ (reka_program s1) Hcopy Halloc).
    done.
Qed.

(** X13: when the text parses, with unique names in the text, in the
    live graph and in the cached snapshot, then after the text-to-graph
    pass the cached snapshot holds the globals and the components of the
    parsed text, up to their order: the next pass starts from the text
    that was synced. *)
Theorem text_sync_updates_snapshot code tree s :
  isSynchingFromExternal s = false ->
  parseProgram code = Normal tree ->
  NoDup (g_name <$> tree_globals tree) ->
  NoDup (c_name <$> tree_components tree) ->
  unique_names (store s) (reka_program s) ->
  unique_names (store s) (currentStateRef s) ->
  allocated (store s) (reka_program s) ->
  allocated (store s) (currentStateRef s) ->
  let s' := syncCodeToState parseProgram code s in
  tree_globals (read_tree (store s') (currentStateRef s'))
    ≡ₚ tree_globals tree /\
  tree_components (read_tree (store s') (currentStateRef s'))
    ≡ₚ tree_components tree.
Proof.
  intros Hflag Hparse Htg Htc [Hlg Hlc] [Hcg Hcc] [Hag Hac] [Hbg Hbc].
  cbv zeta.
  rewrite (syncCodeToState_parsed parseProgram code tree s Hflag Hparse).
  destruct (instantiate (store s) tree) as [st0 newAST] eqn:Hinst.
  apply instantiate_inv in Hinst as [Hallocg Hallocc].
  simpl fst. simpl snd.
  set (s1 := set_store st0 (set_isSynchingFromCodeMirror true s)).
  destruct (diffAST (store s1) (currentStateRef s1) newAST)
    as [st1 cached] eqn:Hd1.
  destruct (diffAST st1 (reka_program s1) cached) as [st2 live] eqn:Hd2.
  destruct (reconcile_passes_graph newAST s1 _ _ _ _ Hd1 Hd2)
    as (Hstore & _ & Hsnap).
  destruct (emit_graph SuccessStatus (reconcile_passes newAST s1))
    as (Hes & _ & Hec).
  simpl store. simpl currentStateRef. rewrite Hes, Hec, Hstore, Hsnap.
  apply diffAST_inv in Hd1 as [Hd1g Hd1c].
  apply diffAST_inv in Hd2 as [Hd2g Hd2c].
  simpl in Hd1g, Hd1c, Hd2g, Hd2c.
  pose proof (alloc_all_spec _ _ _ _ Hallocg) as [Hvg _].
  pose proof (alloc_all_spec _ _ _ _ Hallocc) as [Hvc _].
  pose proof (fun r => alloc_all_obj _ _ _ _ r Hallocg) as Hog.
  pose proof (fun r => alloc_all_obj _ _ _ _ r Hallocc) as Hoc.
  split; simpl.
  - rewrite <- Hvg.
    apply (diff_twice_snapshot same_global_name merge_Global g_name
             same_global_name_key merge_Global_replace
             (gheap st0) (currentStateRef s) (reka_program s) newAST cached
             globals _ _ _ _ Hd1g eq_refl Hd2g).
    + rewrite (keys_allocated g_name (gheap (store s))); done.
    + rewrite (keys_allocated g_name (gheap (store s))); done.
    + rewrite keys_as_fmap, Hvg. done.
  - rewrite <- Hvc.
    apply (diff_twice_snapshot same_component_name merge_Component c_name
             same_component_name_key merge_Component_replace
             (cheap st0) (currentStateRef s) (reka_program s) newAST cached
             components _ _ _ _ Hd1c eq_refl Hd2c).
    + rewrite (keys_allocated c_name (cheap (store s))); done.
    + rewrite (keys_allocated c_name (cheap (store s))); done.
    + rewrite keys_as_fmap, Hvc. done.
Qed.

(** X14: the text-to-graph pass puts no copies into the live graph:
    every global and every component that is an entry of the live graph
    after the pass and was none before is an entry of the cached snapshot
    too, the same object. *)
Theorem text_sync_shares_objects code tree s :
  isSynchingFromExternal s = false ->
  parseProgram code = Normal tree ->
  let s' := syncCodeToState parseProgram code s in
  (forall r, r ∈ globals (reka_program s') ->
             r ∉ globals (reka_program s) ->
             r ∈ globals (currentStateRef s')) /\
  (forall r, r ∈ components (reka_program s') ->
             r ∉ components (reka_program s) ->
             r ∈ components (currentStateRef s')).
Proof.
  intros Hflag Hparse. cbv zeta.
  rewrite (syncCodeToState_parsed parseProgram code tree s Hflag Hparse).
  destruct (instantiate (store s) tree) as [st0 newAST] eqn:Hinst.
  simpl fst. simpl snd.
  set (s1 := set_store st0 (set_isSynchingFromCodeMirror true s)).
  destruct (diffAST (store s1) (currentStateRef s1) newAST)
    as [st1 cached] eqn:Hd1.
  destruct (diffAST st1 (reka_program s1) cached) as [st2 live] eqn:Hd2.
  destruct (reconcile_passes_graph newAST s1 _ _ _ _ Hd1 Hd2)
    as (_ & Hprog & Hsnap).
  destruct (emit_graph SuccessStatus (reconcile_passes newAST s1))
    as (_ & Hep & Hec).
  simpl reka_program. simpl currentStateRef. rewrite Hep, Hec, Hprog, Hsnap.
  apply diffAST_inv in Hd2 as [Hd2g Hd2c]. simpl in Hd2g, Hd2c.
  split; intros r Hr Hout.
  - apply (diff_elem_of same_global_name merge_Global g_name
             same_global_name_key
             (merge_replace_key merge_Global g_name merge_Global_replace)
             _ _ _ _ _ _ r Hd2g) in Hr as [[Hin|[Hin _]] _]; done.
  - apply (diff_elem_of same_component_name merge_Component c_name
             same_component_name_key
             (merge_replace_key merge_Component c_name
                merge_Component_replace)
             _ _ _ _ _ _ r Hd2c) in Hr as [[Hin|[Hin _]] _]; done.
Qed.
End EditorExtraClaims.

(* --------------------------------------------------------------------- *)
(* The further facts on the sample session                               *)
(* --------------------------------------------------------------------- *)

Lemma typing_flag_tracks_pending_sync_witness :
  isSynchingFromCodeMirror Sample.typed = false /\
  (isTypingRef Sample.typed = true <-> is_Some (debounced Sample.typed)) /\
  (is_Some (debounced Sample.typed) ->
   forall g,
     let s' := flush Sample.print (reka_change (external g) Sample.typed) in
     s' = external g Sample.typed /\
     codemirrorView s' = codemirrorView Sample.typed /\
     currentCodeStringRef s' = currentCodeStringRef Sample.typed /\
     currentStateRef s' = currentStateRef Sample.typed /\
     debounced s' = debounced Sample.typed /\
     microtasks s' = 0 /\
     isSynchingFromExternal s' = false).
Proof.
  apply (typing_flag_tracks_pending_sync Sample.parse Sample.print).
  apply sample_typed_reachable.
Defined.


Lemma external_change_reaches_editor_witness :
  let s := flush Sample.print
             (reka_change (external (push_component Sample.Card2))
                Sample.mounted) in
  codemirrorView s
  = Some (Sample.print (read_tree (store s) (reka_program s))) /\
  currentCodeStringRef s
  = Sample.print (read_tree (store s) (reka_program s)) /\
  read_tree (store s) (reka_program s)
  = read_tree
      (store (external (push_component Sample.Card2) Sample.mounted))
      (reka_program (external (push_component Sample.Card2) Sample.mounted)) /\
  isSynchingFromExternal s = false.
Proof.
  apply (external_change_reaches_editor Sample.parse Sample.print
           Sample.mounted (push_component Sample.Card2)
           "component App => <div/>").
  - apply sample_mounted_reachable.
  - reflexivity.
  - reflexivity.
  - split; decide_by_compute.
Defined.

Lemma text_sync_updates_snapshot_witness :
  let s' := syncCodeToState Sample.parse Sample.code_edited Sample.peer_added in
  tree_globals (read_tree (store s') (currentStateRef s')) ≡ₚ [] /\
  tree_components (read_tree (store s') (currentStateRef s'))
    ≡ₚ [Sample.App_edited].
Proof.
  apply (text_sync_updates_snapshot Sample.parse Sample.code_edited
           (mkTree [] [Sample.App_edited]) Sample.peer_added).
  - reflexivity.
  - reflexivity.
  - decide_by_compute.
  - decide_by_compute.
  - split; decide_by_compute.
  - split; decide_by_compute.
  - split; decide_by_compute.
  - split; decide_by_compute.
Defined.

Lemma text_sync_shares_objects_witness :
  let parse := fun _ : string =>
    Normal (mkTree [Sample.y_1] [Sample.App_edited; Sample.Card2]) in
  let s' := syncCodeToState parse "" Sample.mounted in
  components (reka_program Sample.mounted) = [1%positive] /\
  components (reka_program s') = [1; 4]%positive /\
  4%positive ∈ components (currentStateRef s') /\
  globals (reka_program Sample.mounted) = [] /\
  globals (reka_program s') = [1%positive] /\
  1%positive ∈ globals (currentStateRef s').
Proof.
  destruct (text_sync_shares_objects
              (fun _ : string =>
                 Normal (mkTree [Sample.y_1] [Sample.App_edited; Sample.Card2]))
              "" (mkTree [Sample.y_1] [Sample.App_edited; Sample.Card2])
              Sample.mounted)
    as [Hg Hc]; [reflexivity | reflexivity |].
  cbv zeta.
  split; [by vm_compute|]. split; [by vm_compute|].
  split; [apply Hc; decide_by_compute|].
  split; [by vm_compute|]. split; [by vm_compute|].
  apply Hg; decide_by_compute.
Defined.

Lemma settings_keeps_unique_globals_witness :
  let s := initial Sample.print Sample.st Sample.current true in
  let s' := settings_onChange Some "y" "2" s in
  NoDup (global_names (store s') (reka_program s')) /\
  cheap (store s') = cheap (store s) /\
  components (reka_program s') = components (reka_program s).
Proof.
  apply (settings_keeps_unique_globals Some "y" "2"
           (initial Sample.print Sample.st Sample.current true)).
  - decide_by_compute.
  - decide_by_compute.
Defined.

Lemma settings_sets_global_witness :
  let s := initial Sample.print Sample.st Sample.current true in
  let s' := settings_onChange Some "text" "Z" s in
  (exists r,
      List.find (fun x => String.eqb (g_name (obj (gheap (store s')) x)) "text")
        (globals (reka_program s')) = Some r /\
      obj (gheap (store s')) r = mkGlobal "text" "Z") /\
  (forall x, x ∈ globals (reka_program s) ->
     g_name (obj (gheap (store s)) x) <> "text" ->
     x ∈ globals (reka_program s') /\
     obj (gheap (store s')) x = obj (gheap (store s)) x).
Proof.
  apply (settings_sets_global Some "text" "Z" "Z"
           (initial Sample.print Sample.st Sample.current true)).
  - reflexivity.
  - discriminate.
  - decide_by_compute.
Defined.

(* --------------------------------------------------------------------- *)
(* A change of the graph from outside, by the state it meets             *)
(* --------------------------------------------------------------------- *)

Section GraphChangeTurn.
Variable parseProgram : string -> Completion ProgramTree.
Variable stringify : ProgramTree -> string.

(** C9 (amended): on a change of the graph from outside, in a state
    between two turns with a mounted view.  When no typed text waits for
    its sync, the graph-to-text pass runs: the document is replaced from
    position 0 to its end by the printed live graph, and the cached
    snapshot and the cached code string are renewed, if and only if the
    printed text differs from the document; when it is equal, document,
    snapshot, code string and store are as the change left them.  When
    typed text waits for its sync, the notification is dropped whatever
    the printed text: document, snapshot reference and code string stay
    as they were. *)
Theorem graph_change_turn s0 g doc :
  reachable parseProgram stringify s0 ->
  codemirrorView s0 = Some doc ->
  let mid := reka_change (external g) s0 in
  let newCode := stringify (read_tree (store mid) (reka_program mid)) in
  let s := flush stringify mid in
  (isTypingRef s0 = false ->
     (newCode <> doc ->
        codemirrorView s
        = Some (apply_transaction
                  (mkTransaction 0 (String.length doc) newCode) doc) /\
        codemirrorView s = Some newCode /\
        currentCodeStringRef s = newCode /\
        (store s, currentStateRef s)
        = fromJSON (store mid) (reka_program mid) /\
        read_tree (store s) (currentStateRef s)
        = read_tree (store mid) (reka_program mid)) /\
     (newCode = doc ->
        codemirrorView s = Some doc /\
        currentStateRef s = currentStateRef s0 /\
        currentCodeStringRef s = currentCodeStringRef s0 /\
        store s = store mid)) /\
  (isTypingRef s0 = true ->
     s = external g s0 /\
     codemirrorView s = Some doc /\
     currentStateRef s = currentStateRef s0 /\
     currentCodeStringRef s = currentCodeStringRef s0).
Proof.
  intros Hreach Hview mid newCode s.
  pose proof (reachable_quiescent _ _ _ Hreach) as (Hflag & Hq & Hdoc).
  destruct (reachable_sync_idle parseProgram stringify s0 Hreach)
    as (Hcm & _ & _).
  destruct (external_frame g s0)
    as (H1 & H2 & H3 & H4 & H5 & H6 & _ & H8 & _).
  split.
  - intros Htyping.
    assert (Hmid : mid = set_microtasks 1
                           (set_isSynchingFromExternal true (external g s0))).
    { unfold mid, reka_change, onExternalChange.
      by rewrite H3, H5, Hcm, Htyping, H6, Hview, H4, Hflag, H8, Hq. }
    assert (Hs : s = run_microtask stringify mid).
    { unfold s. rewrite flush_one by (by rewrite Hmid).
      unfold run_microtask. by rewrite Hmid. }
    destruct (graph_to_text_pass parseProgram stringify s0 g doc Hreach)
      as [Hdiffers Hsame].
    { fold mid. by rewrite Hmid. }
    { fold mid. rewrite Hmid. simpl. by rewrite H6. }
    fold mid in Hdiffers, Hsame. fold newCode in Hdiffers, Hsame.
    rewrite <- Hs in Hdiffers, Hsame.
    split; [exact Hdiffers|].
    intros Heq. destruct (Hsame Heq) as (S1 & S2 & S3 & S4).
    repeat split; try done.
    + rewrite S2, Hmid. simpl. exact H1.
    + rewrite S3, Hmid. simpl. exact H2.
  - intros Htyping.
    assert (Hs : s = external g s0).
    { unfold s, mid, reka_change.
      rewrite onExternalChange_guard by (right; by rewrite H5).
      apply flush_idle. by rewrite H8. }
    rewrite Hs. split; [done|]. by rewrite H6, H1, H2.
Qed.
End GraphChangeTurn.

(** C9 (as stated, refuted): it is not so that on every change of the
    graph from outside the document is replaced by the printed graph
    whenever the two differ.  In the sample session the user has typed an
    edit that waits for its sync; a peer adds Card2; the printed graph
    differs from the document, and the document stays. *)
Lemma external_change_while_typing_ignored :
  ~ (forall parseProgram stringify s0 g doc,
        reachable parseProgram stringify s0 ->
        codemirrorView s0 = Some doc ->
        let mid := reka_change (external g) s0 in
        let newCode := stringify (read_tree (store mid) (reka_program mid)) in
        let s := flush stringify mid in
        (newCode <> doc ->
           codemirrorView s = Some newCode /\
           currentCodeStringRef s = newCode) /\
        (newCode = doc ->
           codemirrorView s = Some doc /\
           currentStateRef s = currentStateRef s0 /\
           currentCodeStringRef s = currentCodeStringRef s0)).
Proof.
  intros H.
  destruct (H Sample.parse Sample.print Sample.typed
              (push_component Sample.Card2) Sample.code_edited)
    as [Hdiffers _].
  - apply sample_typed_reachable.
  - reflexivity.
  - destruct Hdiffers as [Hview _].
    + vm_compute. discriminate.
    + vm_compute in Hview. discriminate Hview.
Qed.

Lemma graph_change_turn_witness :
  (let s := flush Sample.print
              (reka_change (external (push_component Sample.Card2))
                 Sample.mounted) in
   codemirrorView s = Some "component App => <div/>;component Card2 => <p/>" /\
   currentCodeStringRef s
   = "component App => <div/>;component Card2 => <p/>") /\
  (let s := flush Sample.print
              (reka_change (external (push_component Sample.Card2))
                 Sample.typed) in
   codemirrorView s = Some Sample.code_edited /\
   currentStateRef s = currentStateRef Sample.typed /\
   currentCodeStringRef s = Sample.code_edited).
Proof.
  split.
  - destruct (graph_change_turn Sample.parse Sample.print Sample.mounted
                (push_component Sample.Card2) "component App => <div/>")
      as [Hidle _].
    + apply sample_mounted_reachable.
    + reflexivity.
    + destruct (Hidle eq_refl) as [Hdiffers _].
      destruct Hdiffers as (_ & Hview & Hcode & _).
      * vm_compute. discriminate.
      * split; [exact Hview | exact Hcode].
  - destruct (graph_change_turn Sample.parse Sample.print Sample.typed
                (push_component Sample.Card2) Sample.code_edited)
      as [_ Htyping].
    + apply sample_typed_reachable.
    + reflexivity.
    + destruct (Htyping eq_refl) as (_ & Hview & Hsnap & Hcode).
      split; [exact Hview|]. split; [exact Hsnap | exact Hcode].
Defined.
